(** * The C enum generator of protobuf-c (c_enum.cc)

    A shallow embedding of [EnumGenerator] and of the three renderers
    [GenerateDefinition], [GenerateDescriptorDeclarations] and
    [GenerateEnumDescriptor], with the properties of the emitted text.

    The renderers are imperative: they drive an [io::Printer], read the
    descriptor through its accessors and sort two heap arrays in place.
    They are embedded as programs of a state-and-failure monad over a
    [World] made of the printer and of a trace of the calls to
    [EnumDescriptor::value]. *)

From Stdlib Require Import Ascii.
From stdpp Require Import base tactics option numbers list strings gmap sorting pretty.

Local Open Scope Z_scope.

(** ** Characters that the C source writes with an escape *)

Definition NL : string := String "010"%char EmptyString.
Definition DQ : string := String "034"%char EmptyString.

(** ** Descriptors (google/protobuf/descriptor.h, read-only input) *)

(** [EnumValueDescriptor]: [name()] and [number()] (a C [int]). *)
Record EnumValueDescriptor := {
  name : string;
  number : Z;
}.

(** [EnumDescriptor]: [full_name()], [name()] (here [enum_name]),
    [file()->package()] (here [package]) and the values in declaration
    order; [value_count()] is their number. *)
Record EnumDescriptor := {
  full_name : string;
  enum_name : string;
  package : string;
  values : list EnumValueDescriptor;
}.

Definition value_count (d : EnumDescriptor) : Z := Z.of_nat (length (values d)).

(** ** Helpers of c_helpers.h and strutil.h

    Their definitions are not part of c_enum.cc; the renderers are
    embedded over any choice of them. *)
Class CHelpers := {
  FullNameToC : string → string;
  FullNameToUpper : string → string;
  FullNameToLower : string → string;
  ToUpper : string → string;
  SimpleItoa : Z → string;
}.

(** ** io::Printer

    The printer (google/protobuf/io/printer.h, of the protobuf library)
    is the output sink of every renderer; c_enum.cc only calls it. It
    is modelled after its implementation: [Write] appends raw text,
    the current indentation first when the text starts a line and is
    not empty; [Print] copies a template, replacing [$name$] by the
    value bound to [name] and [$$] by a dollar sign, and the next write
    after a newline of the template starts a line; [Indent] and
    [Outdent] add and remove two spaces of indentation. *)
Record Printer := {
  buffer : string;
  indent_ : string;
  at_start_of_line_ : bool;
}.

Definition Write (data : string) (p : Printer) : Printer :=
  match data with
  | EmptyString => p
  | _ =>
    {| buffer := buffer p
                 +:+ (if at_start_of_line_ p then indent_ p else "")
                 +:+ data;
       indent_ := indent_ p;
       at_start_of_line_ := false |}
  end.

Definition start_line (p : Printer) : Printer :=
  {| buffer := buffer p; indent_ := indent_ p; at_start_of_line_ := true |}.

(** A string with one more character at its end. *)
Fixpoint snoc (s : string) (c : ascii) : string :=
  match s with
  | EmptyString => String c EmptyString
  | String a s' => String a (snoc s' c)
  end.

(** Where the scan of a template stands: inside literal text, of which
    [chunk] is not written yet, or inside a variable name. *)
Inductive scan_mode :=
  | InText (chunk : string)
  | InVariable (varname : string).

(** The loop of [Printer::Print]. An undefined variable and a variable
    name that is not closed are logged as fatal by the printer: they
    are failures here. *)
Fixpoint scan (variables : gmap string string) (text : string)
    (m : scan_mode) (p : Printer) : option Printer :=
  match text, m with
  | EmptyString, InText chunk => Some (Write chunk p)
  | EmptyString, InVariable _ => None
  | String c text', InText chunk =>
    if Ascii.eqb c "010"%char then
      scan variables text' (InText "") (start_line (Write (snoc chunk c) p))
    else if Ascii.eqb c "$"%char then
      scan variables text' (InVariable "") (Write chunk p)
    else scan variables text' (InText (snoc chunk c)) p
  | String c text', InVariable varname =>
    if Ascii.eqb c "$"%char then
      match varname with
      | EmptyString => scan variables text' (InText "") (Write "$" p)
      | _ =>
        match variables !! varname with
        | Some v => scan variables text' (InText "") (Write v p)
        | None => None
        end
      end
    else scan variables text' (InVariable (snoc varname c)) p
  end.

Definition Printer_Print (variables : gmap string string) (text : string)
    (p : Printer) : option Printer :=
  scan variables text (InText "") p.

Definition Printer_Indent (p : Printer) : Printer :=
  {| buffer := buffer p; indent_ := indent_ p +:+ "  ";
     at_start_of_line_ := at_start_of_line_ p |}.

(** A string without its last two characters. *)
Fixpoint drop_last2 (s : string) : string :=
  match s with
  | String a (String _ (String _ _) as s') => String a (drop_last2 s')
  | _ => ""
  end.

(** [Outdent] on an empty indentation is logged as fatal by the printer. *)
Definition Printer_Outdent (p : Printer) : option Printer :=
  match indent_ p with
  | EmptyString => None
  | ind => Some {| buffer := buffer p; indent_ := drop_last2 ind;
                   at_start_of_line_ := at_start_of_line_ p |}
  end.

(** ** The monad of the renderers

    A renderer runs against the printer it is given and the descriptor
    of its generator. [value_calls] records, in call order, every index
    passed to [EnumDescriptor::value]; the accessor only adds the index
    to the base of the value array, and a fault can only come from
    reading through the pointer it returns. *)
Record World := {
  printer : Printer;
  value_calls : list Z;
}.

Definition M (A : Type) : Type := World → option (A * World).

#[local] Instance M_ret : MRet M := λ A a w, Some (a, w).
#[local] Instance M_bind : MBind M := λ A B f m w,
  match m w with
  | Some (a, w') => f a w'
  | None => None
  end.

Definition fault {A} : M A := λ _, None.

(** Lifting of the printer's methods. *)
Definition with_printer (f : Printer → option Printer) : M unit := λ w,
  match f (printer w) with
  | Some p => Some ((), {| printer := p; value_calls := value_calls w |})
  | None => None
  end.

Definition Print (vars : gmap string string) (text : string) : M unit :=
  with_printer (Printer_Print vars text).
Definition Indent : M unit := with_printer (λ p, Some (Printer_Indent p)).
Definition Outdent : M unit := with_printer Printer_Outdent.

(** A pointer to an [EnumValueDescriptor] is the index it was obtained
    with; reading through it faults outside of the value array. *)
Definition value_ptr := Z.

Definition value (i : Z) : M value_ptr := λ w,
  Some (i, {| printer := printer w; value_calls := value_calls w ++ [i] |}).

Definition deref (d : EnumDescriptor) (p : value_ptr) : M EnumValueDescriptor :=
  if decide (0 ≤ p) then
    match values d !! Z.to_nat p with
    | Some vd => mret vd
    | None => fault
    end
  else fault.

(** [for (int i = lo; i < hi; i++) body], the locals that the body
    assigns being threaded through as [s]. *)
Fixpoint for_loop {S} (n : nat) (i : Z) (body : Z → S → M S) (s : S) : M S :=
  match n with
  | O => mret s
  | Datatypes.S n' => s' ← body i s; for_loop n' (i + 1) body s'
  end.

Definition for_ {S} (lo hi : Z) (body : Z → S → M S) (s : S) : M S :=
  for_loop (Z.to_nat (hi - lo)) lo body s.

(** Reads and writes of a heap array; both fault out of range. *)
Definition array_get {A} (a : list A) (i : Z) : M A :=
  if decide (0 ≤ i) then
    match a !! Z.to_nat i with
    | Some x => mret x
    | None => fault
    end
  else fault.

Definition array_set {A} (a : list A) (i : Z) (x : A) : M (list A) :=
  if decide (0 ≤ i ∧ i < Z.of_nat (length a)) then mret (<[Z.to_nat i := x]> a)
  else fault.

(** ** The C library: strcmp and qsort *)

(** [strcmp] on the C strings held by two [std::string]s: bytes are
    compared as [unsigned char] up to the first difference or the first
    NUL, the end of a string reading as NUL. Only the sign of the result
    is specified; the difference of the two bytes is one such result. *)
Definition byte (c : ascii) : Z := Z.of_N (N_of_ascii c).

Fixpoint strcmp (a b : string) : Z :=
  match a, b with
  | EmptyString, EmptyString => 0
  | EmptyString, String y _ => - byte y
  | String x _, EmptyString => byte x
  | String x a', String y b' =>
    if decide (byte x = byte y) then
      if decide (byte x = 0) then 0 else strcmp a' b'
    else byte x - byte y
  end.

(** What the C standard asks of a comparison function: a consistent
    total order, given through the sign of the result. *)
Definition cmp_le {A} (cmp : A → A → Z) : relation A := λ a b, cmp a b ≤ 0.

Record Consistent {A} (cmp : A → A → Z) : Prop := {
  cmp_antisym : ∀ a b, Z.sgn (cmp b a) = - Z.sgn (cmp a b);
  cmp_trans : Transitive (cmp_le cmp);
}.

(** [qsort] sorts the array in ascending order of the comparison
    function; the order of elements that compare equal is unspecified,
    and so is the algorithm. The renderers are embedded over any
    function that meets this contract. *)
Class Qsort := {
  qsort : ∀ {A}, (A → A → Z) → list A → list A;
  qsort_Permutation : ∀ {A} (cmp : A → A → Z) l, qsort cmp l ≡ₚ l;
  qsort_Sorted : ∀ {A} (cmp : A → A → Z) l,
    Consistent cmp → StronglySorted (cmp_le cmp) (qsort cmp l);
}.

(** ** The index records of c_enum.cc (lines 88-97)

    [index] is [unsigned] in the source; it only ever holds a loop
    counter. A fresh array of [new] holds indeterminate records. *)
Module NameIndex.
Record t := { name : string; index : Z }.
Definition set_name (x : string) (r : t) : t := {| name := x; index := index r |}.
Definition set_index (x : Z) (r : t) : t := {| name := name r; index := x |}.
Definition uninitialized : t := {| name := ""; index := 0 |}.
End NameIndex.

Module ValueIndex.
Record t := { value : Z; index : Z }.
Definition set_value (x : Z) (r : t) : t := {| value := x; index := index r |}.
Definition set_index (x : Z) (r : t) : t := {| value := value r; index := x |}.
Definition uninitialized : t := {| value := 0; index := 0 |}.
End ValueIndex.

(** ** EnumGenerator *)

Record EnumGenerator := {
  descriptor_ : EnumDescriptor;
  dllexport_decl_ : string;
}.

Section Generator.
Context `{!CHelpers, !Qsort}.

(** The body of the loop over the values (lines 55-68); [vars],
    [min_value] and [max_value] are the locals it assigns. *)
Definition define_value (d : EnumDescriptor) (i : Z)
    (s : gmap string string * value_ptr * value_ptr)
    : M (gmap string string * value_ptr * value_ptr) :=
  let '(vars, min_value, max_value) := s in
  vd ← value i ≫= deref d;
  let vars := <["name" := name vd]> vars in
  vd ← value i ≫= deref d;
  let vars := <["number" := SimpleItoa (number vd)]> vars in
  let vars := <["prefix" := FullNameToUpper (full_name d) +:+ "__"]> vars in
  Print vars ("$prefix$$name$ = $number$," +:+ NL);;
  vd ← value i ≫= deref d;
  mv ← deref d min_value;
  min_value ← (if decide (number vd < number mv) then value i
               else mret min_value);
  vd ← value i ≫= deref d;
  mv ← deref d max_value;
  max_value ← (if decide (number vd > number mv) then value i
               else mret max_value);
  mret (vars, min_value, max_value).

Definition GenerateDefinition (g : EnumGenerator) : M unit :=
  let d := descriptor_ g in
  let vars : gmap string string := ∅ in
  let vars := <["classname" := FullNameToC (full_name d)]> vars in
  let vars := <["shortname" := enum_name d]> vars in
  Print vars ("typedef enum _$classname$ {" +:+ NL);;
  Indent;;
  min_value ← value 0;
  max_value ← value 0;
  '(vars, _, _) ←
    for_ 0 (value_count d) (define_value d) (vars, min_value, max_value);
  Outdent;;
  Print vars ("} $classname$;" +:+ NL).

Definition GenerateDescriptorDeclarations (g : EnumGenerator) : M unit :=
  let d := descriptor_ g in
  let vars : gmap string string := ∅ in
  let vars :=
    if decide (dllexport_decl_ g = "") then <["dllexport" := ""]> vars
    else <["dllexport" := dllexport_decl_ g +:+ " "]> vars in
  let vars := <["classname" := FullNameToC (full_name d)]> vars in
  let vars := <["lcclassname" := FullNameToLower (full_name d)]> vars in
  Print vars
    ("extern $dllexport$const ProtobufCEnumDescriptor    $lcclassname$__descriptor;"
     +:+ NL).

Definition GenerateValueInitializer (g : EnumGenerator) (index : Z) : M unit :=
  let d := descriptor_ g in
  vd ← value index;
  let vars : gmap string string := ∅ in
  v ← deref d vd;
  let vars := <["enum_value_name" := name v]> vars in
  v ← deref d vd;
  let vars := <["c_enum_value_name" :=
    FullNameToUpper (full_name d) +:+ "__" +:+ ToUpper (name v)]> vars in
  v ← deref d vd;
  let vars := <["value" := SimpleItoa (number v)]> vars in
  Print vars
    ("  { " +:+ DQ +:+ "$enum_value_name$" +:+ DQ +:+ ", "
     +:+ DQ +:+ "$c_enum_value_name$" +:+ DQ +:+ ", $value$ }," +:+ NL).

Definition compare_name_indices_by_name (ni_a ni_b : NameIndex.t) : Z :=
  strcmp (NameIndex.name ni_a) (NameIndex.name ni_b).

Definition compare_value_indices_by_value_then_index
    (vi_a vi_b : ValueIndex.t) : Z :=
  if decide (ValueIndex.value vi_a < ValueIndex.value vi_b) then -1
  else if decide (ValueIndex.value vi_a > ValueIndex.value vi_b) then 1
  else if decide (ValueIndex.index vi_a < ValueIndex.index vi_b) then -1
  else if decide (ValueIndex.index vi_a > ValueIndex.index vi_b) then 1
  else 0.

(** The loop that fills the two index arrays (lines 139-145). *)
Definition fill_indices (d : EnumDescriptor) (j : Z)
    (s : list NameIndex.t * list ValueIndex.t)
    : M (list NameIndex.t * list ValueIndex.t) :=
  let '(name_index, value_index) := s in
  vd ← value j;
  ni ← array_get name_index j;
  name_index ← array_set name_index j (NameIndex.set_index j ni);
  v ← deref d vd;
  ni ← array_get name_index j;
  name_index ← array_set name_index j (NameIndex.set_name (name v) ni);
  vi ← array_get value_index j;
  value_index ← array_set value_index j (ValueIndex.set_index j vi);
  v ← deref d vd;
  vi ← array_get value_index j;
  value_index ← array_set value_index j (ValueIndex.set_value (number v) vi);
  mret (name_index, value_index).

(** The loop that records the unique values (lines 157-160). *)
Definition record_unique (j : Z) (s : list ValueIndex.t * Z)
    : M (list ValueIndex.t * Z) :=
  let '(value_index, n_unique_values) := s in
  a ← array_get value_index (j - 1);
  b ← array_get value_index j;
  if decide (ValueIndex.value a ≠ ValueIndex.value b) then
    x ← array_get value_index j;
    value_index ← array_set value_index n_unique_values x;
    mret (value_index, n_unique_values + 1)
  else mret (value_index, n_unique_values).

(** The loop that prints the values-by-number table (lines 169-173). *)
Definition print_by_number (g : EnumGenerator) (value_index : list ValueIndex.t)
    (j : Z) (_ : unit) : M unit :=
  a ← array_get value_index (j - 1);
  b ← array_get value_index j;
  if decide (ValueIndex.value a ≠ ValueIndex.value b) then
    x ← array_get value_index j;
    GenerateValueInitializer g (ValueIndex.index x)
  else mret ().

(** The loop that prints the values-by-name table (lines 180-182). *)
Definition print_by_name (g : EnumGenerator) (name_index : list NameIndex.t)
    (j : Z) (_ : unit) : M unit :=
  x ← array_get name_index j;
  GenerateValueInitializer g (NameIndex.index x).

Definition GenerateEnumDescriptor (g : EnumGenerator) : M unit :=
  let d := descriptor_ g in
  let vars : gmap string string := ∅ in
  let vars := <["fullname" := full_name d]> vars in
  let vars := <["lcclassname" := FullNameToLower (full_name d)]> vars in
  let vars := <["cname" := FullNameToC (full_name d)]> vars in
  let vars := <["shortname" := enum_name d]> vars in
  let vars := <["packagename" := package d]> vars in
  let vars := <["value_count" := SimpleItoa (value_count d)]> vars in
  let name_index := replicate (Z.to_nat (value_count d)) NameIndex.uninitialized in
  let value_index := replicate (Z.to_nat (value_count d)) ValueIndex.uninitialized in
  '(name_index, value_index) ←
    for_ 0 (value_count d) (fill_indices d) (name_index, value_index);
  let name_index := qsort compare_name_indices_by_name name_index in
  let value_index := qsort compare_value_indices_by_value_then_index value_index in
  '(value_index, n_unique_values) ←
    (if decide (value_count d = 0) then mret (value_index, 0)
     else for_ 1 (value_count d) record_unique (value_index, 1));
  let vars := <["unique_value_count" := SimpleItoa n_unique_values]> vars in
  Print vars
    ("const ProtobufCEnumValue $lcclassname$_enum_values_by_number[$unique_value_count$] ="
     +:+ NL +:+ "{" +:+ NL);;
  (if decide (value_count d > 0) then
     x ← array_get value_index 0;
     GenerateValueInitializer g (ValueIndex.index x);;
     for_ 1 (value_count d) (print_by_number g value_index) ()
   else mret ());;
  Print vars ("};" +:+ NL);;
  Print vars
    ("const ProtobufCEnumValue $lcclassname$_enum_values_by_name[$value_count$] ="
     +:+ NL +:+ "{" +:+ NL);;
  for_ 0 (value_count d) (print_by_name g name_index) ();;
  Print vars ("};" +:+ NL);;
  Print vars
    ("const ProtobufCEnumDescriptor $lcclassname$__descriptor =" +:+ NL
     +:+ "{" +:+ NL
     +:+ "  " +:+ DQ +:+ "$fullname$" +:+ DQ +:+ "," +:+ NL
     +:+ "  " +:+ DQ +:+ "$shortname$" +:+ DQ +:+ "," +:+ NL
     +:+ "  " +:+ DQ +:+ "$cname$" +:+ DQ +:+ "," +:+ NL
     +:+ "  " +:+ DQ +:+ "$packagename$" +:+ DQ +:+ "," +:+ NL
     +:+ "  $unique_value_count$," +:+ NL
     +:+ "  $lcclassname$_enum_values_by_number," +:+ NL
     +:+ "  $value_count$," +:+ NL
     +:+ "  $lcclassname$_enum_values_by_name" +:+ NL
     +:+ "};" +:+ NL).

End Generator.

(** ** A sorting function that meets the contract of qsort *)

#[local] Instance cmp_le_dec {A} (cmp : A → A → Z) : RelDecision (cmp_le cmp).
Proof. intros a b. unfold cmp_le. apply _. Defined.

Lemma Consistent_total {A} (cmp : A → A → Z) : Consistent cmp → Total (cmp_le cmp).
Proof.
  intros [Ha _] a b. unfold cmp_le. specialize (Ha a b).
  destruct (Z.sgn_spec (cmp a b)) as [[? ?]|[[? ?]|[? ?]]];
  destruct (Z.sgn_spec (cmp b a)) as [[? ?]|[[? ?]|[? ?]]]; lia.
Qed.

Lemma merge_sort_Sorted {A} (cmp : A → A → Z) l :
  Consistent cmp → StronglySorted (cmp_le cmp) (merge_sort (cmp_le cmp) l).
Proof.
  intros Hc. pose proof (Consistent_total cmp Hc). pose proof (cmp_trans cmp Hc).
  by apply StronglySorted_merge_sort.
Qed.

Definition merge_qsort : Qsort := {|
  qsort := λ A cmp, merge_sort (cmp_le cmp);
  qsort_Permutation := λ A cmp, merge_sort_Permutation (cmp_le cmp);
  qsort_Sorted := λ A cmp, merge_sort_Sorted cmp;
|}.

(** ** A concrete choice of the helpers, for the examples

    Modelled from the spec: the bodies of [FullNameToC],
    [FullNameToUpper], [FullNameToLower] and [ToUpper] (c_helpers.cc) and
    of [SimpleItoa] (strutil.cc) are not in c_enum.cc. The spec gives:
    a merged camel-case type identifier, an upper-snake-case form and a
    lower-case separator-joined form of the dotted full name, the
    upper-cased value name, and the decimal spelling of an integer. *)
Module SpecHelpers.

Definition is_upper (c : ascii) : bool :=
  (65 <=? nat_of_ascii c)%nat && (nat_of_ascii c <=? 90)%nat.
Definition is_lower (c : ascii) : bool :=
  (97 <=? nat_of_ascii c)%nat && (nat_of_ascii c <=? 122)%nat.
Definition toupper (c : ascii) : ascii :=
  if is_lower c then ascii_of_nat (nat_of_ascii c - 32) else c.
Definition tolower (c : ascii) : ascii :=
  if is_upper c then ascii_of_nat (nat_of_ascii c + 32) else c.

Fixpoint string_map (f : ascii → ascii) (s : string) : string :=
  match s with
  | EmptyString => EmptyString
  | String c s' => String (f c) (string_map f s')
  end.

(** The segments of a dotted name, empty segments dropped. *)
Fixpoint split_dots (s : string) (cur : string) : list string :=
  match s with
  | EmptyString => match cur with EmptyString => [] | _ => [cur] end
  | String c s' =>
    if Ascii.eqb c "."%char then
      match cur with
      | EmptyString => split_dots s' ""
      | _ => cur :: split_dots s' ""
      end
    else split_dots s' (snoc cur c)
  end.

Fixpoint join (sep : string) (l : list string) : string :=
  match l with
  | [] => ""
  | [x] => x
  | x :: l' => x +:+ sep +:+ join sep l'
  end.

(** Snake case of one camel-case segment: an underscore before every
    capital that follows a character that is not a capital. *)
Fixpoint camel_to_snake (f : ascii → ascii) (was_upper : bool) (s : string) : string :=
  match s with
  | EmptyString => EmptyString
  | String c s' =>
    if is_upper c then
      (if was_upper then "" else "_") +:+ String (f c) (camel_to_snake f true s')
    else String (f c) (camel_to_snake f false s')
  end.

Definition capitalize (s : string) : string :=
  match s with
  | EmptyString => EmptyString
  | String c s' => String (toupper c) s'
  end.

#[export] Instance spec_helpers : CHelpers := {|
  FullNameToC := λ s, join "__" (capitalize <$> split_dots s "");
  FullNameToUpper := λ s, join "__" (camel_to_snake toupper true <$> split_dots s "");
  FullNameToLower := λ s, join "__" (camel_to_snake tolower true <$> split_dots s "");
  ToUpper := string_map toupper;
  SimpleItoa := pretty;
|}.

End SpecHelpers.

(** * What the renderers print

    The functions of this part describe the text and the tables that
    the properties speak about; the theorems below relate them to the
    renderers. *)

(** A printer, and a world, standing at the start of a line. *)
Definition at_line_start (b ind : string) : Printer :=
  {| buffer := b; indent_ := ind; at_start_of_line_ := true |}.
Definition in_line (b ind : string) : Printer :=
  {| buffer := b; indent_ := ind; at_start_of_line_ := false |}.
Definition world (b ind : string) (log : list Z) : World :=
  {| printer := at_line_start b ind; value_calls := log |}.

(** Concatenation of the lines of a table or of a member list. *)
Definition cat (l : list string) : string := foldr String.app "" l.

(** The index arrays once filled (lines 139-145). *)
Definition name_indices (d : EnumDescriptor) : list NameIndex.t :=
  imap (λ j v, {| NameIndex.name := name v; NameIndex.index := Z.of_nat j |})
       (values d).

Definition value_indices (d : EnumDescriptor) : list ValueIndex.t :=
  imap (λ j v, {| ValueIndex.value := number v; ValueIndex.index := Z.of_nat j |})
       (values d).

(** The elements of an array that differ in value from the element
    before them, [prev] standing before the first. *)
Fixpoint unique_from (prev : ValueIndex.t) (l : list ValueIndex.t)
    : list ValueIndex.t :=
  match l with
  | [] => []
  | x :: l' =>
    if decide (ValueIndex.value prev ≠ ValueIndex.value x)
    then x :: unique_from x l' else unique_from x l'
  end.

(** The first element and every element that differs in value from its
    predecessor: what each of the two loops over [value_index] selects
    from the array it reads. *)
Definition first_of_runs (l : list ValueIndex.t) : list ValueIndex.t :=
  match l with
  | [] => []
  | x :: l' => x :: unique_from x l'
  end.

(** The array [value_index] after the loop of lines 157-160: the
    selected records at the front, the rest of the array as it was. *)
Definition recorded (vs : list ValueIndex.t) : list ValueIndex.t :=
  first_of_runs vs ++ drop (length (first_of_runs vs)) vs.

(** The C string of a [std::string]: its bytes up to the first NUL. *)
Fixpoint c_str (s : string) : string :=
  match s with
  | EmptyString => EmptyString
  | String x s' => if decide (byte x = 0) then EmptyString else String x (c_str s')
  end.

(** A name without a NUL byte, as every protobuf identifier is. *)
Definition NUL_free (s : string) : Prop := c_str s = s.

Definition valid_index (d : EnumDescriptor) (i : Z) : Prop :=
  0 ≤ i < value_count d.

(** The number of distinct integers among the values. *)
Definition distinct_numbers (d : EnumDescriptor) : nat :=
  length (remove_dups (number <$> values d)).

Section Text.
Context `{!CHelpers, !Qsort}.

(** One member of the type declaration. *)
Definition enum_member (ind : string) (d : EnumDescriptor)
    (v : EnumValueDescriptor) : string :=
  ind +:+ FullNameToUpper (full_name d) +:+ "__" +:+ name v +:+ " = "
  +:+ SimpleItoa (number v) +:+ "," +:+ NL.

Definition Definition_text (ind : string) (d : EnumDescriptor) : string :=
  ind +:+ "typedef enum _" +:+ FullNameToC (full_name d) +:+ " {" +:+ NL
  +:+ cat (enum_member (ind +:+ "  ") d <$> values d)
  +:+ ind +:+ "} " +:+ FullNameToC (full_name d) +:+ ";" +:+ NL.

Definition DescriptorDeclarations_text (ind : string) (g : EnumGenerator) : string :=
  ind +:+ "extern "
  +:+ (if decide (dllexport_decl_ g = "") then "" else dllexport_decl_ g +:+ " ")
  +:+ "const ProtobufCEnumDescriptor    "
  +:+ FullNameToLower (full_name (descriptor_ g)) +:+ "__descriptor;" +:+ NL.

(** The record of one value in a table. *)
Definition initializer (ind : string) (d : EnumDescriptor)
    (v : EnumValueDescriptor) : string :=
  ind +:+ "  { " +:+ DQ +:+ name v +:+ DQ +:+ ", "
  +:+ DQ +:+ FullNameToUpper (full_name d) +:+ "__" +:+ ToUpper (name v) +:+ DQ
  +:+ ", " +:+ SimpleItoa (number v) +:+ " }," +:+ NL.

Definition value_initializer (ind : string) (d : EnumDescriptor) (index : Z) : string :=
  if decide (0 ≤ index) then
    from_option (initializer ind d) "" (values d !! Z.to_nat index)
  else "".

(** The two arrays after [qsort] (lines 146-149). *)
Definition sorted_names (d : EnumDescriptor) : list NameIndex.t :=
  qsort compare_name_indices_by_name (name_indices d).
Definition sorted_values (d : EnumDescriptor) : list ValueIndex.t :=
  qsort compare_value_indices_by_value_then_index (value_indices d).

(** [n_unique_values] after lines 152-161. *)
Definition n_unique_values (d : EnumDescriptor) : Z :=
  Z.of_nat (length (first_of_runs (sorted_values d))).

(** The indices handed to [GenerateValueInitializer] for the
    values-by-number table: the loop of lines 167-174 selects them from
    the array that the loop of lines 157-160 has overwritten. *)
Definition values_by_number (d : EnumDescriptor) : list Z :=
  ValueIndex.index <$> first_of_runs (recorded (sorted_values d)).

(** The indices handed to it for the values-by-name table. *)
Definition values_by_name (d : EnumDescriptor) : list Z :=
  NameIndex.index <$> sorted_names d.

(** The fields of the descriptor record, in the order of the template
    of lines 185-196. *)
Definition descriptor_fields (d : EnumDescriptor) (unique_value_count : Z)
    : list string :=
  [ DQ +:+ full_name d +:+ DQ;
    DQ +:+ enum_name d +:+ DQ;
    DQ +:+ FullNameToC (full_name d) +:+ DQ;
    DQ +:+ package d +:+ DQ;
    SimpleItoa unique_value_count;
    FullNameToLower (full_name d) +:+ "_enum_values_by_number";
    SimpleItoa (value_count d);
    FullNameToLower (full_name d) +:+ "_enum_values_by_name" ].

(** The lines of a record: every field but the last is followed by a comma. *)
Fixpoint field_lines (ind : string) (fields : list string) : string :=
  match fields with
  | [] => ""
  | [f] => ind +:+ "  " +:+ f +:+ NL
  | f :: fs => ind +:+ "  " +:+ f +:+ "," +:+ NL +:+ field_lines ind fs
  end.

(** A table: its declaration with its size, and one record per index. *)
Definition table_text (ind : string) (d : EnumDescriptor) (table : string)
    (size : Z) (indices : list Z) : string :=
  ind +:+ "const ProtobufCEnumValue " +:+ FullNameToLower (full_name d)
  +:+ "_enum_values_by_" +:+ table +:+ "[" +:+ SimpleItoa size +:+ "] =" +:+ NL
  +:+ ind +:+ "{" +:+ NL
  +:+ cat (value_initializer ind d <$> indices)
  +:+ ind +:+ "};" +:+ NL.

Definition descriptor_text (ind : string) (d : EnumDescriptor)
    (unique_value_count : Z) : string :=
  ind +:+ "const ProtobufCEnumDescriptor " +:+ FullNameToLower (full_name d)
  +:+ "__descriptor =" +:+ NL
  +:+ ind +:+ "{" +:+ NL
  +:+ field_lines ind (descriptor_fields d unique_value_count)
  +:+ ind +:+ "};" +:+ NL.

Definition EnumDescriptor_text (ind : string) (d : EnumDescriptor) : string :=
  table_text ind d "number" (n_unique_values d) (values_by_number d)
  +:+ table_text ind d "name" (value_count d) (values_by_name d)
  +:+ descriptor_text ind d (n_unique_values d).

(** The calls to [EnumDescriptor::value] of [GenerateEnumDescriptor]:
    one per value when the arrays are filled, one per record printed. *)
Definition EnumDescriptor_calls (d : EnumDescriptor) : list Z :=
  seqZ 0 (value_count d) ++ values_by_number d ++ values_by_name d.

(** The three renderers, one after the other on one printer. *)
Definition full_pipeline (g : EnumGenerator) : M unit :=
  GenerateDefinition g;;
  GenerateDescriptorDeclarations g;;
  GenerateEnumDescriptor g.

Definition pipeline_text (ind : string) (g : EnumGenerator) : string :=
  Definition_text ind (descriptor_ g)
  +:+ DescriptorDeclarations_text ind g
  +:+ EnumDescriptor_text ind (descriptor_ g).

End Text.
(** * Properties *)

(** ** Strings *)

Lemma string_app_cons (x : ascii) (a b : string) :
  String x a +:+ b = String x (a +:+ b).
Proof. done. Qed.

Lemma string_app_nil_r (s : string) : s +:+ "" = s.
Proof. induction s as [|c s IH]; [done|]. by rewrite string_app_cons, IH. Qed.

Lemma string_app_assoc (a b c : string) : (a +:+ b) +:+ c = a +:+ (b +:+ c).
Proof. induction a as [|x a IH]; [done|]. by rewrite !string_app_cons, IH. Qed.

(** Appends reassociated to the right, literals taken apart. *)
Ltac str_norm :=
  repeat first
    [ rewrite string_app_assoc
    | rewrite string_app_nil_r
    | progress change (String.app EmptyString ?s) with s
    | progress change (String.app (String ?c ?a) ?s) with (String c (String.app a s)) ].

Lemma drop_last2_app (ind : string) : drop_last2 (ind +:+ "  ") = ind.
Proof.
  induction ind as [|a [|b ind] IH]; try done.
  change (String a (String b ind) +:+ "  ") with (String a (String b ind +:+ "  ")).
  destruct ind as [|c ind]; [done|].
  change (drop_last2 (String a (String b (String c ind) +:+ "  ")))
    with (String a (drop_last2 (String b (String c ind) +:+ "  "))).
  by rewrite IH.
Qed.

Lemma cat_app l1 l2 : cat (l1 ++ l2) = cat l1 +:+ cat l2.
Proof.
  induction l1 as [|x l1 IH]; [done|]. unfold cat in *. simpl.
  by rewrite IH, string_app_assoc.
Qed.

Lemma cat_snoc l x : cat (l ++ [x]) = cat l +:+ x.
Proof. rewrite cat_app. unfold cat; simpl. by rewrite string_app_nil_r. Qed.

(** ** The printer at the start of a line and inside a line *)

Lemma Write_nil p : Write "" p = p.
Proof. done. Qed.

Lemma Write_in_line s b ind : Write s (in_line b ind) = in_line (b +:+ s) ind.
Proof. destruct s; unfold Write, in_line; simpl; by rewrite ?string_app_nil_r. Qed.

Lemma Write_at_line_start c s b ind :
  Write (String c s) (at_line_start b ind) = in_line (b +:+ ind +:+ String c s) ind.
Proof. done. Qed.

Lemma start_line_in_line b ind : start_line (in_line b ind) = at_line_start b ind.
Proof. done. Qed.

(** The one template line that starts with a variable: the
    indentation goes before the first text that is not empty. *)
Lemma Write_at_line_start_3 s1 s2 c s b ind :
  Write (String c s) (Write s2 (Write s1 (at_line_start b ind)))
  = in_line (b +:+ ind +:+ s1 +:+ s2 +:+ String c s) ind.
Proof.
  destruct s1 as [|c1 s1], s2 as [|c2 s2];
    rewrite ?Write_nil, ?Write_at_line_start, ?Write_in_line; f_equal; by str_norm.
Qed.

#[local] Arguments Write : simpl never.
#[local] Arguments start_line : simpl never.

Ltac norm_template :=
  match goal with
  | |- context [scan ?v ?t ?m ?p] =>
    let t' := eval vm_compute in t in change (scan v t m p) with (scan v t' m p)
  end.

Ltac lookup_vars :=
  repeat first [ rewrite lookup_insert_eq | rewrite lookup_insert_ne by done ].

Ltac run_writes :=
  rewrite ?Write_nil, ?Write_at_line_start_3;
  repeat first [ rewrite Write_at_line_start | rewrite Write_in_line
               | rewrite start_line_in_line | rewrite Write_nil ].

(** Runs [Print] on a template: the goal is left as an equation
    between two printers at the start of a line. *)
Ltac run_print :=
  unfold Printer_Print; norm_template; simpl scan.

(** ** Running the monad *)

Lemma bind_run {A B} (m : M A) (f : A → M B) w a w' :
  m w = Some (a, w') → (m ≫= f) w = f a w'.
Proof. intros H. unfold mbind, M_bind. by rewrite H. Qed.

Lemma Print_run vars text b ind log b' :
  Printer_Print vars text (at_line_start b ind) = Some (at_line_start b' ind) →
  Print vars text (world b ind log) = Some ((), world b' ind log).
Proof. intros H. unfold Print, with_printer, world; simpl. by rewrite H. Qed.

Lemma Indent_run b ind log :
  Indent (world b ind log) = Some ((), world b (ind +:+ "  ") log).
Proof. done. Qed.

Lemma Outdent_run b ind log :
  Outdent (world b (ind +:+ "  ") log) = Some ((), world b ind log).
Proof.
  unfold Outdent, with_printer, Printer_Outdent, world, at_line_start.
  cbn [printer indent_ buffer at_start_of_line_ value_calls].
  generalize (drop_last2_app ind).
  destruct (ind +:+ "  ") as [|c s] eqn:E; [by destruct ind|]. by intros ->.
Qed.

Lemma value_run i b ind log :
  value i (world b ind log) = Some (i, world b ind (log ++ [i])).
Proof. done. Qed.

Lemma deref_run d p v w :
  0 ≤ p → values d !! Z.to_nat p = Some v → deref d p w = Some (v, w).
Proof. intros Hp Hv. unfold deref. rewrite decide_True by done. by rewrite Hv. Qed.

Lemma value_deref_run d i v b ind log :
  0 ≤ i → values d !! Z.to_nat i = Some v →
  (value i ≫= deref d) (world b ind log) = Some (v, world b ind (log ++ [i])).
Proof.
  intros Hi Hv. erewrite bind_run by apply value_run. by apply deref_run.
Qed.

Lemma array_get_run {A} (a : list A) i x w :
  0 ≤ i → a !! Z.to_nat i = Some x → array_get a i w = Some (x, w).
Proof. intros Hi Hx. unfold array_get. rewrite decide_True by done. by rewrite Hx. Qed.

Lemma array_set_run {A} (a : list A) i x w :
  0 ≤ i < Z.of_nat (length a) →
  array_set a i x w = Some (<[Z.to_nat i := x]> a, w).
Proof. intros Hi. unfold array_set. by rewrite decide_True. Qed.

(** A loop runs to its end and keeps an invariant that every
    iteration keeps. *)
Lemma for_loop_inv {S} (I : Z → S → World → Prop) (body : Z → S → M S) n i s w :
  I i s w →
  (∀ j s w, i ≤ j < i + Z.of_nat n → I j s w →
     ∃ s' w', body j s w = Some (s', w') ∧ I (j + 1) s' w') →
  ∃ s' w', for_loop n i body s w = Some (s', w') ∧ I (i + Z.of_nat n) s' w'.
Proof.
  revert i s w. induction n as [|n IH]; intros i s w Hi Hstep.
  - exists s, w. split; [done|]. by replace (i + Z.of_nat 0) with i by lia.
  - destruct (Hstep i s w) as (s1 & w1 & Hb & H1); [lia|done|].
    destruct (IH (i + 1) s1 w1) as (s2 & w2 & Hl & H2); [done| |].
    { intros j s' w' Hj. apply Hstep. lia. }
    exists s2, w2. split.
    + simpl. by erewrite bind_run by exact Hb.
    + by replace (i + Z.of_nat (Datatypes.S n)) with (i + 1 + Z.of_nat n) by lia.
Qed.

Lemma for_inv {S} (I : Z → S → World → Prop) (body : Z → S → M S) lo hi s w :
  lo ≤ hi → I lo s w →
  (∀ j s w, lo ≤ j < hi → I j s w →
     ∃ s' w', body j s w = Some (s', w') ∧ I (j + 1) s' w') →
  ∃ s' w', for_ lo hi body s w = Some (s', w') ∧ I hi s' w'.
Proof.
  intros Hle Hi Hstep. unfold for_.
  destruct (for_loop_inv I body (Z.to_nat (hi - lo)) lo s w) as (s' & w' & H1 & H2);
    [done| |].
  { intros j s' w' Hj. apply Hstep. lia. }
  exists s', w'. split; [done|].
  by replace hi with (lo + Z.of_nat (Z.to_nat (hi - lo))) at 1 by lia.
Qed.

Lemma for_empty {S} (body : Z → S → M S) lo hi s w :
  hi ≤ lo → for_ lo hi body s w = Some (s, w).
Proof. intros Hle. unfold for_. by replace (Z.to_nat (hi - lo)) with 0%nat by lia. Qed.

(** ** The selection of the first record of every run of equal values *)

Lemma unique_from_snoc p l a x :
  unique_from p (l ++ [a; x])
  = unique_from p (l ++ [a])
    ++ (if decide (ValueIndex.value a ≠ ValueIndex.value x) then [x] else []).
Proof.
  revert p. induction l as [|y l IH]; intros p; simpl.
  - repeat case_decide; reflexivity.
  - rewrite IH. by destruct (decide (ValueIndex.value p ≠ ValueIndex.value y)).
Qed.

Lemma first_of_runs_snoc l a x :
  first_of_runs (l ++ [a; x])
  = first_of_runs (l ++ [a])
    ++ (if decide (ValueIndex.value a ≠ ValueIndex.value x) then [x] else []).
Proof.
  destruct l as [|y l]; simpl.
  - by case_decide.
  - by rewrite unique_from_snoc.
Qed.

Lemma first_of_runs_take l j a x :
  (0 < j)%nat → l !! (j - 1)%nat = Some a → l !! j = Some x →
  first_of_runs (take (S j) l)
  = first_of_runs (take j l)
    ++ (if decide (ValueIndex.value a ≠ ValueIndex.value x) then [x] else []).
Proof.
  intros Hj Ha Hx. erewrite take_S_r by done.
  replace j with (S (j - 1)) at 1 2 by lia. erewrite take_S_r by done.
  rewrite <- (assoc_L (++)). apply first_of_runs_snoc.
Qed.

Lemma unique_from_sublist p l : unique_from p l `sublist_of` l.
Proof.
  revert p. induction l as [|y l IH]; intros p; simpl; [done|].
  case_decide; [by apply sublist_skip|by apply sublist_cons].
Qed.

Lemma first_of_runs_sublist l : first_of_runs l `sublist_of` l.
Proof. destruct l as [|x l]; simpl; [done|]. apply sublist_skip, unique_from_sublist. Qed.

Lemma first_of_runs_length l : (length (first_of_runs l) ≤ length l)%nat.
Proof. apply sublist_length, first_of_runs_sublist. Qed.

Lemma first_of_runs_subseteq l : first_of_runs l ⊆ l.
Proof. apply sublist_subseteq, first_of_runs_sublist. Qed.

(** The last selected element has the value of the last element. *)
Lemma first_of_runs_last_value l a :
  ∃ u, last (first_of_runs (l ++ [a])) = Some u
       ∧ ValueIndex.value u = ValueIndex.value a.
Proof.
  revert a. induction l as [|y l IH] using rev_ind; intros a.
  - by exists a.
  - rewrite <- (assoc_L (++)). simpl. rewrite first_of_runs_snoc.
    case_decide.
    + exists a. by rewrite last_snoc.
    + destruct (IH y) as (u & Hu & Hv). exists u. rewrite app_nil_r.
      split; [done|]. rewrite Hv.
      by destruct (decide (ValueIndex.value y = ValueIndex.value a)).
Qed.

Lemma recorded_lookup_r (U vs : list ValueIndex.t) k :
  (length U ≤ k)%nat → (U ++ drop (length U) vs) !! k = vs !! k.
Proof.
  intros Hk. rewrite lookup_app_r by done. rewrite lookup_drop. f_equal. lia.
Qed.

Lemma recorded_subseteq vs : recorded vs ⊆ vs.
Proof.
  unfold recorded. intros x [Hx|Hx]%elem_of_app.
  - by apply first_of_runs_subseteq.
  - by eapply subseteq_drop.
Qed.

Lemma recorded_length vs : length (recorded vs) = length vs.
Proof.
  unfold recorded. rewrite length_app, length_drop.
  pose proof (first_of_runs_length vs). lia.
Qed.

(** The front of the overwritten array is never touched: the loop
    writes at index 1 and above. *)
Lemma first_of_runs_recorded_head x vs :
  ∃ rest, first_of_runs (recorded (x :: vs)) = x :: rest.
Proof. unfold recorded. simpl. by eexists. Qed.

(** ** The comparison functions *)

Lemma compare_value_Consistent :
  Consistent compare_value_indices_by_value_then_index.
Proof.
  split.
  - intros a b. unfold compare_value_indices_by_value_then_index.
    repeat case_decide; simpl; lia.
  - intros a b c. unfold cmp_le, compare_value_indices_by_value_then_index.
    repeat case_decide; lia.
Qed.

Lemma compare_value_le a b :
  cmp_le compare_value_indices_by_value_then_index a b ↔
  ValueIndex.value a < ValueIndex.value b
  ∨ (ValueIndex.value a = ValueIndex.value b
     ∧ ValueIndex.index a ≤ ValueIndex.index b).
Proof.
  unfold cmp_le, compare_value_indices_by_value_then_index.
  repeat case_decide; lia.
Qed.

#[local] Instance compare_value_AntiSymm :
  AntiSymm (=) (cmp_le compare_value_indices_by_value_then_index).
Proof.
  intros [va ia] [vb ib] Hab Hba. apply compare_value_le in Hab, Hba.
  simpl in *. f_equal; lia.
Qed.

Lemma byte_nonneg x : 0 ≤ byte x.
Proof. unfold byte. lia. Qed.

Lemma byte_inj x y : byte x = byte y → x = y.
Proof.
  unfold byte. intros Hxy%(inj Z.of_N).
  by rewrite <- (ascii_N_embedding x), <- (ascii_N_embedding y), Hxy.
Qed.

Lemma Ascii_compare_byte x y : Ascii.compare x y = (byte x ?= byte y).
Proof. unfold Ascii.compare, byte. by rewrite N2Z.inj_compare. Qed.

(** [strcmp] orders two strings as the byte-wise lexicographic order
    orders their C strings. *)
Lemma strcmp_compare a b :
  strcmp a b ≤ 0 ↔ String.compare (c_str a) (c_str b) ≠ Gt.
Proof.
  revert b. induction a as [|x a IH]; intros [|y b]; simpl.
  - done.
  - pose proof (byte_nonneg y). case_decide; simpl; split; (done || lia).
  - pose proof (byte_nonneg x). case_decide; simpl; split; (done || lia).
  - pose proof (byte_nonneg x). pose proof (byte_nonneg y).
    destruct (decide (byte x = byte y)) as [Hxy|Hxy].
    + apply byte_inj in Hxy as <-. destruct (decide (byte x = 0)); [done|].
      simpl. rewrite Ascii_compare_byte, Z.compare_refl. apply IH.
    + destruct (decide (byte x = 0)), (decide (byte y = 0)); simpl;
        try (split; (done || lia)).
      rewrite Ascii_compare_byte.
      destruct (Z.compare_spec (byte x) (byte y)); split; (done || lia).
Qed.

Lemma strcmp_le a b : strcmp a b ≤ 0 ↔ (c_str a ≤ c_str b)%string.
Proof.
  rewrite strcmp_compare. unfold String.le, String.leb.
  by destruct (String.compare (c_str a) (c_str b)).
Qed.

Lemma strcmp_antisym a b : strcmp b a = - strcmp a b.
Proof.
  revert b. induction a as [|x a IH]; intros [|y b]; simpl; try lia.
  destruct (decide (byte x = byte y)) as [Hxy|Hxy].
  - rewrite decide_True by done. rewrite <- Hxy.
    destruct (decide (byte x = 0)); [done|]. apply IH.
  - rewrite decide_False by done. lia.
Qed.

Lemma compare_name_Consistent : Consistent compare_name_indices_by_name.
Proof.
  split.
  - intros a b. unfold compare_name_indices_by_name.
    rewrite (strcmp_antisym (NameIndex.name a)). lia.
  - intros a b c. unfold cmp_le, compare_name_indices_by_name.
    rewrite !strcmp_le. apply transitivity.
Qed.

(** Two elements of a sorted list are ordered as their positions. *)
Lemma StronglySorted_lookup {A} (R : relation A) l i j a c :
  StronglySorted R l → (i < j)%nat → l !! i = Some a → l !! j = Some c → R a c.
Proof.
  intros Hl. revert i j. induction Hl as [|x l Hl IH Hx]; intros i j Hij Ha Hc.
  - done.
  - destruct j as [|j]; [lia|]. destruct i as [|i]; simplify_eq/=.
    + eapply (Forall_lookup_1 _ _ _ _ Hx Hc).
    + eapply (IH i j); [lia|done..].
Qed.

Lemma StronglySorted_impl {A} (R R' : relation A) l :
  (∀ a b, R a b → R' a b) → StronglySorted R l → StronglySorted R' l.
Proof.
  intros HR. induction 1 as [|x l Hl IH Hx]; constructor; [done|].
  eapply Forall_impl; [exact Hx|]. apply HR.
Qed.

(** ** The index arrays *)

Lemma name_indices_lookup d j v :
  values d !! j = Some v →
  name_indices d !! j
  = Some {| NameIndex.name := name v; NameIndex.index := Z.of_nat j |}.
Proof. intros Hv. unfold name_indices. by rewrite list_lookup_imap, Hv. Qed.

Lemma value_indices_lookup d j v :
  values d !! j = Some v →
  value_indices d !! j
  = Some {| ValueIndex.value := number v; ValueIndex.index := Z.of_nat j |}.
Proof. intros Hv. unfold value_indices. by rewrite list_lookup_imap, Hv. Qed.

Lemma name_indices_length d : length (name_indices d) = length (values d).
Proof. apply length_imap. Qed.

Lemma value_indices_length d : length (value_indices d) = length (values d).
Proof. apply length_imap. Qed.

(** Every record of the arrays stands for the value at its index. *)
Lemma elem_of_value_indices d x :
  x ∈ value_indices d ↔
  ∃ j v, values d !! j = Some v
         ∧ x = {| ValueIndex.value := number v; ValueIndex.index := Z.of_nat j |}.
Proof.
  rewrite list_elem_of_lookup. unfold value_indices.
  setoid_rewrite list_lookup_imap. split.
  - intros (j & Hj). destruct (values d !! j) as [v|] eqn:Hv; simplify_eq/=.
    by exists j, v.
  - intros (j & v & Hv & ->). exists j. by rewrite Hv.
Qed.

Lemma elem_of_name_indices d x :
  x ∈ name_indices d ↔
  ∃ j v, values d !! j = Some v
         ∧ x = {| NameIndex.name := name v; NameIndex.index := Z.of_nat j |}.
Proof.
  rewrite list_elem_of_lookup. unfold name_indices.
  setoid_rewrite list_lookup_imap. split.
  - intros (j & Hj). destruct (values d !! j) as [v|] eqn:Hv; simplify_eq/=.
    by exists j, v.
  - intros (j & v & Hv & ->). exists j. by rewrite Hv.
Qed.

Lemma value_indices_valid d :
  Forall (λ x, valid_index d (ValueIndex.index x)) (value_indices d).
Proof.
  apply Forall_forall. intros x (j & v & Hv & ->)%elem_of_value_indices.
  apply lookup_lt_Some in Hv. unfold valid_index, value_count. simpl. lia.
Qed.

Lemma name_indices_valid d :
  Forall (λ x, valid_index d (NameIndex.index x)) (name_indices d).
Proof.
  apply Forall_forall. intros x (j & v & Hv & ->)%elem_of_name_indices.
  apply lookup_lt_Some in Hv. unfold valid_index, value_count. simpl. lia.
Qed.

Lemma valid_index_lookup {X} (f : X → Z) d (A : list X) k x :
  Forall (λ x, valid_index d (f x)) A → A !! k = Some x →
  0 ≤ f x < value_count d.
Proof. intros HF Hx. exact (Forall_lookup_1 _ _ _ _ HF Hx). Qed.

Lemma value_indices_values d :
  ValueIndex.value <$> value_indices d = number <$> values d.
Proof.
  apply list_eq. intros k. unfold value_indices.
  rewrite !list_lookup_fmap, list_lookup_imap. by destruct (values d !! k).
Qed.

Lemma name_indices_indices d :
  NameIndex.index <$> name_indices d = seqZ 0 (value_count d).
Proof.
  apply list_eq. intros k. unfold name_indices, value_count.
  rewrite list_lookup_fmap, list_lookup_imap.
  destruct (values d !! k) as [v|] eqn:Hv; simpl.
  - apply lookup_lt_Some in Hv. rewrite lookup_seqZ_lt by lia. f_equal.
  - apply lookup_ge_None in Hv. by rewrite lookup_seqZ_ge by lia.
Qed.

Lemma seqZ_snoc j : 0 ≤ j → seqZ 0 (j + 1) = seqZ 0 j ++ [j].
Proof. intros Hj. by rewrite seqZ_app by lia. Qed.

(** ** The renderers, run *)

Section Runs.
Context `{!CHelpers, !Qsort}.

(** *** GenerateDescriptorDeclarations *)

Lemma GenerateDescriptorDeclarations_run g b ind log :
  GenerateDescriptorDeclarations g (world b ind log)
  = Some ((), world (b +:+ DescriptorDeclarations_text ind g) ind log).
Proof.
  unfold GenerateDescriptorDeclarations. apply Print_run. run_print.
  unfold DescriptorDeclarations_text.
  destruct (decide (dllexport_decl_ g = "")); lookup_vars; run_writes;
    do 2 f_equal; unfold NL; by str_norm.
Qed.

(** *** GenerateDefinition *)

(** One iteration prints one member; the two pointers stay inside the
    part of the array that the loop has visited. *)
Lemma define_value_run d b ind j v (vars : gmap string string) minv maxv log :
  0 ≤ j → values d !! Z.to_nat j = Some v →
  0 ≤ minv ≤ j → 0 ≤ maxv ≤ j →
  ∃ vars' minv' maxv' log',
    define_value d j (vars, minv, maxv) (world b ind log)
    = Some ((vars', minv', maxv'), world (b +:+ enum_member ind d v) ind log')
    ∧ vars' !! "classname" = vars !! "classname"
    ∧ 0 ≤ minv' ≤ j + 1 ∧ 0 ≤ maxv' ≤ j + 1.
Proof.
  intros Hj Hv Hmin Hmax. unfold define_value.
  destruct (lookup_lt_is_Some_2 (values d) (Z.to_nat minv)) as [vmin Hvmin].
  { apply lookup_lt_Some in Hv. lia. }
  destruct (lookup_lt_is_Some_2 (values d) (Z.to_nat maxv)) as [vmax Hvmax].
  { apply lookup_lt_Some in Hv. lia. }
  erewrite bind_run by (by apply value_deref_run).
  erewrite bind_run by (by apply value_deref_run). cbv zeta.
  erewrite bind_run; cycle 1.
  { apply Print_run. run_print. lookup_vars. run_writes. reflexivity. }
  erewrite bind_run by (by apply value_deref_run).
  erewrite bind_run by (apply deref_run; [lia|done]).
  match goal with
  | |- context [world ?t ind (((log ++ [j]) ++ [j]) ++ [j])] =>
    replace t with (b +:+ enum_member ind d v)
      by (unfold enum_member, NL; by str_norm)
  end.
  destruct (decide (number v < number vmin)), (decide (number v > number vmax)).
  all: erewrite bind_run by first [apply value_run | reflexivity].
  all: erewrite bind_run by (by apply value_deref_run).
  all: erewrite bind_run by (apply deref_run; [lia|done]).
  all: rewrite ?decide_True, ?decide_False by done.
  all: erewrite bind_run by first [apply value_run | reflexivity].
  all: eexists _, _, _, _; split; [reflexivity|].
  all: split; [by lookup_vars | lia].
Qed.

Lemma GenerateDefinition_run g b ind log :
  ∃ log', GenerateDefinition g (world b ind log)
          = Some ((), world (b +:+ Definition_text ind (descriptor_ g)) ind log').
Proof.
  unfold GenerateDefinition. set (d := descriptor_ g). cbv zeta.
  set (vars0 := <["shortname" := enum_name d]>
                  (<["classname" := FullNameToC (full_name d)]> ∅)
                : gmap string string).
  erewrite bind_run; cycle 1.
  { apply Print_run. run_print. subst vars0. lookup_vars. run_writes. reflexivity. }
  erewrite bind_run by apply Indent_run.
  erewrite bind_run by apply value_run.
  erewrite bind_run by apply value_run.
  set (b1 := b +:+ ind +:+ "typedef enum _" +:+ FullNameToC (full_name d)
             +:+ String " " (String "{" NL)).
  set (ind1 := ind +:+ "  ").
  destruct (for_inv
    (λ j '(vars, minv, maxv) w,
       vars !! "classname" = Some (FullNameToC (full_name d)) ∧
       0 ≤ minv ≤ j ∧ 0 ≤ maxv ≤ j ∧
       ∃ log', w = world
         (b1 +:+ cat (enum_member ind1 d <$> take (Z.to_nat j) (values d)))
         ind1 log')
    (define_value d) 0 (value_count d) (vars0, 0, 0)
    (world b1 ind1 ((log ++ [0]) ++ [0])))
    as ([[vars' minv'] maxv'] & w' & Hrun & Hvars & _ & _ & log' & ->).
  { unfold value_count. lia. }
  { split; [by subst vars0; lookup_vars|]. split; [lia|]. split; [lia|].
    eexists. simpl. unfold cat; simpl. by rewrite string_app_nil_r. }
  { intros j [[vars minv] maxv] w Hj (Hvars & Hmin & Hmax & log1 & ->).
    destruct (lookup_lt_is_Some_2 (values d) (Z.to_nat j)) as [v Hv].
    { unfold value_count in Hj. lia. }
    destruct (define_value_run d
      (b1 +:+ cat (enum_member ind1 d <$> take (Z.to_nat j) (values d))) ind1 j v vars
      minv maxv log1) as (vars' & minv' & maxv' & log' & Hrun & Hvars' & Hmin' & Hmax');
      [lia|done..|].
    eexists (vars', minv', maxv'), _. split; [exact Hrun|].
    split; [congruence|]. split; [done|]. split; [done|].
    exists log'. f_equal.
    replace (Z.to_nat (j + 1)) with (Datatypes.S (Z.to_nat j)) by lia.
    erewrite take_S_r by done. rewrite fmap_app.
    change (enum_member ind1 d <$> [v]) with [enum_member ind1 d v].
    by rewrite cat_snoc, string_app_assoc. }
  erewrite bind_run by exact Hrun.
  rewrite take_ge by (unfold value_count; lia).
  erewrite bind_run by apply Outdent_run.
  eexists. apply Print_run. run_print.
  rewrite Hvars. run_writes. do 2 f_equal.
  unfold Definition_text, b1, ind1, NL. by str_norm.
Qed.

(** With no value the loop does not run: the two calls of lines 51-52
    are the only ones. *)
Lemma GenerateDefinition_run_empty g b ind log :
  values (descriptor_ g) = [] →
  GenerateDefinition g (world b ind log)
  = Some ((), world (b +:+ Definition_text ind (descriptor_ g)) ind (log ++ [0; 0])).
Proof.
  intros Hnil. unfold GenerateDefinition. set (d := descriptor_ g) in *. cbv zeta.
  erewrite bind_run; cycle 1.
  { apply Print_run. run_print. lookup_vars. run_writes. reflexivity. }
  erewrite bind_run by apply Indent_run.
  erewrite bind_run by apply value_run.
  erewrite bind_run by apply value_run.
  erewrite bind_run by (apply for_empty; unfold value_count; rewrite Hnil; done).
  cbv beta iota.
  erewrite bind_run by apply Outdent_run.
  rewrite <- (assoc_L (++)). apply Print_run. run_print.
  lookup_vars. run_writes. do 2 f_equal.
  unfold Definition_text, NL. rewrite Hnil. unfold cat. simpl. by str_norm.
Qed.

(** *** GenerateValueInitializer *)

Lemma GenerateValueInitializer_run g index b ind log :
  0 ≤ index < value_count (descriptor_ g) →
  GenerateValueInitializer g index (world b ind log)
  = Some ((), world (b +:+ value_initializer ind (descriptor_ g) index) ind
                    (log ++ [index])).
Proof.
  intros Hi. unfold GenerateValueInitializer. set (d := descriptor_ g) in *.
  destruct (lookup_lt_is_Some_2 (values d) (Z.to_nat index)) as [v Hv].
  { unfold value_count in Hi. lia. }
  erewrite bind_run by apply value_run. cbv zeta.
  do 3 erewrite bind_run by (apply deref_run; [lia|done]).
  apply Print_run. run_print.
  lookup_vars. run_writes. do 2 f_equal.
  unfold value_initializer. rewrite decide_True by lia. rewrite Hv. simpl.
  unfold initializer, NL, DQ. by str_norm.
Qed.

(** *** Lines 139-145: the arrays hold one record per value *)

Lemma fill_indices_run d j v ns vs b ind log :
  0 ≤ j → values d !! Z.to_nat j = Some v →
  (Z.to_nat j < length ns)%nat → (Z.to_nat j < length vs)%nat →
  fill_indices d j (ns, vs) (world b ind log)
  = Some ((<[Z.to_nat j := {| NameIndex.name := name v; NameIndex.index := j |}]> ns,
           <[Z.to_nat j := {| ValueIndex.value := number v; ValueIndex.index := j |}]> vs),
          world b ind (log ++ [j])).
Proof.
  intros Hj Hv Hns Hvs. unfold fill_indices.
  destruct (lookup_lt_is_Some_2 ns (Z.to_nat j) Hns) as [n0 Hn0].
  destruct (lookup_lt_is_Some_2 vs (Z.to_nat j) Hvs) as [v0 Hv0].
  erewrite bind_run by apply value_run.
  erewrite bind_run by (by apply array_get_run).
  erewrite bind_run by (apply array_set_run; lia).
  erewrite bind_run by (by apply deref_run).
  erewrite bind_run by (apply array_get_run; [done|by apply list_lookup_insert_eq]).
  erewrite bind_run by (apply array_set_run; rewrite length_insert; lia).
  erewrite bind_run by (by apply array_get_run).
  erewrite bind_run by (apply array_set_run; lia).
  erewrite bind_run by (by apply deref_run).
  erewrite bind_run by (apply array_get_run; [done|by apply list_lookup_insert_eq]).
  erewrite bind_run by (apply array_set_run; rewrite length_insert; lia).
  by rewrite !list_insert_insert_eq.
Qed.

Lemma fill_loop_run d b ind log :
  for_ 0 (value_count d) (fill_indices d)
    (replicate (Z.to_nat (value_count d)) NameIndex.uninitialized,
     replicate (Z.to_nat (value_count d)) ValueIndex.uninitialized)
    (world b ind log)
  = Some ((name_indices d, value_indices d),
          world b ind (log ++ seqZ 0 (value_count d))).
Proof.
  destruct (for_inv
    (λ j '(ns, vs) w,
       length ns = length (values d) ∧ length vs = length (values d) ∧
       (∀ k, (k < Z.to_nat j)%nat → ns !! k = name_indices d !! k) ∧
       (∀ k, (k < Z.to_nat j)%nat → vs !! k = value_indices d !! k) ∧
       w = world b ind (log ++ seqZ 0 j))
    (fill_indices d) 0 (value_count d)
    (replicate (Z.to_nat (value_count d)) NameIndex.uninitialized,
     replicate (Z.to_nat (value_count d)) ValueIndex.uninitialized)
    (world b ind log))
    as ([ns vs] & w' & Hrun & Hln & Hlv & Hns & Hvs & ->).
  { unfold value_count. lia. }
  { rewrite !length_replicate. unfold value_count.
    repeat split; try lia. by rewrite app_nil_r. }
  { intros j [ns vs] w Hj (Hln & Hlv & Hns & Hvs & ->).
    unfold value_count in Hj.
    destruct (lookup_lt_is_Some_2 (values d) (Z.to_nat j)) as [v Hv]; [lia|].
    eexists (_, _), _. split.
    { apply fill_indices_run; [lia|done|lia..]. }
    rewrite !length_insert. repeat split; [done..| | |].
    - intros k Hk. destruct (decide (k = Z.to_nat j)) as [->|].
      + rewrite list_lookup_insert_eq by lia.
        rewrite (name_indices_lookup _ _ v) by done. do 3 f_equal. lia.
      + rewrite list_lookup_insert_ne by done. apply Hns. lia.
    - intros k Hk. destruct (decide (k = Z.to_nat j)) as [->|].
      + rewrite list_lookup_insert_eq by lia.
        rewrite (value_indices_lookup _ _ v) by done. do 3 f_equal. lia.
      + rewrite list_lookup_insert_ne by done. apply Hvs. lia.
    - by rewrite seqZ_snoc, (assoc_L (++)) by lia. }
  rewrite Hrun. do 3 f_equal.
  - apply list_eq. intros k. destruct (decide (k < length (values d))%nat).
    + apply Hns. unfold value_count. lia.
    + rewrite !lookup_ge_None_2; [done|rewrite name_indices_length; lia|lia].
  - apply list_eq. intros k. destruct (decide (k < length (values d))%nat).
    + apply Hvs. unfold value_count. lia.
    + rewrite !lookup_ge_None_2; [done|rewrite value_indices_length; lia|lia].
Qed.

(** *** Lines 157-160: the unique values are recorded in place

    The loop compares neighbours of the sorted array while it moves
    records towards the front. A record is only ever moved to a place
    that the comparisons have passed, or into the left neighbour of the
    current comparison, which then holds a record of the same value as
    before: every comparison sees the values of the sorted array. *)

Lemma record_unique_run vs j a x w :
  (0 < j)%nat → vs !! (j - 1)%nat = Some a → vs !! j = Some x →
  let U := first_of_runs (take j vs) in
  let U' := first_of_runs (take (S j) vs) in
  record_unique (Z.of_nat j) (U ++ drop (length U) vs, Z.of_nat (length U)) w
  = Some ((U' ++ drop (length U') vs, Z.of_nat (length U')), w).
Proof.
  intros Hj Ha Hx U U'.
  assert (length U ≤ j)%nat as HU.
  { etrans; [apply first_of_runs_length|]. rewrite length_take. lia. }
  assert (j < length vs)%nat as Hlen by (by eapply lookup_lt_Some).
  assert (∃ a', (U ++ drop (length U) vs) !! (j - 1)%nat = Some a'
                ∧ ValueIndex.value a' = ValueIndex.value a) as (a' & Ha' & Hva).
  { destruct (decide (length U ≤ j - 1)%nat).
    - exists a. by rewrite recorded_lookup_r.
    - assert (length U = j) as HUj by lia.
      destruct (first_of_runs_last_value (take (j - 1) vs) a) as (u & Hu & Hv).
      exists u. split; [|done]. rewrite lookup_app_l by lia.
      rewrite last_lookup in Hu. rewrite <- Hu.
      assert (take j vs = take (j - 1) vs ++ [a]) as Htake.
      { replace j with (S (j - 1)) at 1 by lia. by apply take_S_r. }
      subst U. rewrite Htake in HUj |- *. f_equal. rewrite HUj. lia. }
  assert ((U ++ drop (length U) vs) !! j = Some x) as Hx'.
  { by rewrite recorded_lookup_r. }
  unfold record_unique.
  erewrite bind_run
    by (apply array_get_run; [lia|];
        replace (Z.to_nat (Z.of_nat j - 1)) with (j - 1)%nat by lia; done).
  erewrite bind_run by (apply array_get_run; [lia|]; rewrite Nat2Z.id; done).
  subst U'. rewrite (first_of_runs_take vs j a x) by done. fold U.
  rewrite Hva. destruct (decide (ValueIndex.value a ≠ ValueIndex.value x)).
  - erewrite bind_run by (apply array_get_run; [lia|]; rewrite Nat2Z.id; done).
    erewrite bind_run; cycle 1.
    { apply array_set_run. rewrite length_app, length_drop. lia. }
    unfold mret, M_ret. do 3 f_equal.
    + rewrite Nat2Z.id. rewrite insert_app_r_alt by lia.
      replace (length U - length U)%nat with 0%nat by lia.
      assert (is_Some (vs !! length U)) as [y Hy] by (apply lookup_lt_is_Some_2; lia).
      rewrite (drop_S _ y (length U)) by done. simpl.
      rewrite <- (assoc_L (++)). simpl. do 2 f_equal. rewrite length_app. simpl.
      f_equal. lia.
    + rewrite length_app. simpl. lia.
  - by rewrite app_nil_r.
Qed.

Lemma record_loop_run vs w :
  vs ≠ [] →
  for_ 1 (Z.of_nat (length vs)) record_unique (vs, 1) w
  = Some ((recorded vs, Z.of_nat (length (first_of_runs vs))), w).
Proof.
  intros Hne.
  assert (0 < length vs)%nat as Hpos by (destruct vs; [done|simpl; lia]).
  destruct (for_inv
    (λ j '(A, n) w',
       let U := first_of_runs (take (Z.to_nat j) vs) in
       A = U ++ drop (length U) vs ∧ n = Z.of_nat (length U) ∧ w' = w)
    record_unique 1 (Z.of_nat (length vs)) (vs, 1) w)
    as ([A n] & w' & Hrun & HA & Hn & ->).
  { lia. }
  { destruct vs as [|x vs]; [done|]. simpl. by rewrite ?take_0, ?drop_0. }
  { intros j [A n] w' Hj (-> & -> & ->).
    destruct (lookup_lt_is_Some_2 vs (Z.to_nat j - 1)) as [a Ha]; [lia|].
    destruct (lookup_lt_is_Some_2 vs (Z.to_nat j)) as [x Hx]; [lia|].
    eexists (_, _), _. split.
    { rewrite <- (Z2Nat.id j) at 1 by lia.
      apply (record_unique_run vs (Z.to_nat j) a x); [lia|done..]. }
    replace (Z.to_nat (j + 1)) with (S (Z.to_nat j)) by lia. done. }
  rewrite Hrun. rewrite Nat2Z.id, take_ge in HA, Hn by lia. by subst.
Qed.

(** *** Lines 167-174 and 180-182: the two tables *)

Lemma print_by_number_run g (A : list ValueIndex.t) b ind log :
  A ≠ [] →
  Forall (λ x, valid_index (descriptor_ g) (ValueIndex.index x)) A →
  (x ← array_get A 0;
   GenerateValueInitializer g (ValueIndex.index x);;
   for_ 1 (Z.of_nat (length A)) (print_by_number g A) ()) (world b ind log)
  = Some ((), world
      (b +:+ cat (value_initializer ind (descriptor_ g) <$>
                    (ValueIndex.index <$> first_of_runs A))) ind
      (log ++ (ValueIndex.index <$> first_of_runs A))).
Proof.
  intros Hne Hvalid. set (d := descriptor_ g) in *.
  destruct A as [|x0 A'] eqn:EA; [done|]. rewrite <- EA in *.
  assert (A !! 0%nat = Some x0) as Hx0 by (by rewrite EA).
  erewrite bind_run by (by apply array_get_run).
  erewrite bind_run; cycle 1.
  { apply GenerateValueInitializer_run. by eapply valid_index_lookup. }
  destruct (for_inv
    (λ j (_ : unit) w,
       w = world
         (b +:+ cat (value_initializer ind d <$>
                       (ValueIndex.index <$> first_of_runs (take (Z.to_nat j) A))))
         ind (log ++ (ValueIndex.index <$> first_of_runs (take (Z.to_nat j) A))))
    (print_by_number g A) 1 (Z.of_nat (length A)) ()
    (world (b +:+ value_initializer ind d (ValueIndex.index x0)) ind
           (log ++ [ValueIndex.index x0])))
    as ([] & w' & Hrun & ->).
  { rewrite EA. simpl. lia. }
  { rewrite EA. simpl. rewrite ?take_0. simpl.
    unfold cat. simpl. by rewrite string_app_nil_r. }
  { intros j [] w Hj ->.
    destruct (lookup_lt_is_Some_2 A (Z.to_nat j - 1)) as [a Ha]; [lia|].
    destruct (lookup_lt_is_Some_2 A (Z.to_nat j)) as [x Hx]; [lia|].
    replace (Z.to_nat (j + 1)) with (S (Z.to_nat j)) by lia.
    rewrite (first_of_runs_take A (Z.to_nat j) a x) by (done || lia).
    unfold print_by_number.
    erewrite bind_run
      by (apply array_get_run; [lia|];
          replace (Z.to_nat (j - 1)) with (Z.to_nat j - 1)%nat by lia; done).
    erewrite bind_run by (apply array_get_run; [lia|done]).
    destruct (decide (ValueIndex.value a ≠ ValueIndex.value x)).
    - erewrite bind_run by (apply array_get_run; [lia|done]).
      eexists (), _. split.
      { apply GenerateValueInitializer_run. by eapply valid_index_lookup. }
      rewrite !fmap_app, cat_app. simpl.
      unfold cat at 2. simpl.
      by rewrite string_app_nil_r, string_app_assoc, (assoc_L (++)).
    - eexists (), _. split; [done|]. by rewrite app_nil_r. }
  etrans; [exact Hrun|]. by rewrite Nat2Z.id, take_ge by lia.
Qed.

Lemma print_by_name_run g (ns : list NameIndex.t) b ind log :
  Forall (λ x, valid_index (descriptor_ g) (NameIndex.index x)) ns →
  for_ 0 (Z.of_nat (length ns)) (print_by_name g ns) () (world b ind log)
  = Some ((), world
      (b +:+ cat (value_initializer ind (descriptor_ g) <$>
                    (NameIndex.index <$> ns))) ind
      (log ++ (NameIndex.index <$> ns))).
Proof.
  intros Hvalid. set (d := descriptor_ g) in *.
  destruct (for_inv
    (λ j (_ : unit) w,
       w = world
         (b +:+ cat (value_initializer ind d <$>
                       (NameIndex.index <$> take (Z.to_nat j) ns)))
         ind (log ++ (NameIndex.index <$> take (Z.to_nat j) ns)))
    (print_by_name g ns) 0 (Z.of_nat (length ns)) () (world b ind log))
    as ([] & w' & Hrun & ->).
  { lia. }
  { simpl. unfold cat. simpl. by rewrite string_app_nil_r, app_nil_r. }
  { intros j [] w Hj ->.
    destruct (lookup_lt_is_Some_2 ns (Z.to_nat j)) as [x Hx]; [lia|].
    replace (Z.to_nat (j + 1)) with (S (Z.to_nat j)) by lia.
    erewrite take_S_r by done. unfold print_by_name.
    erewrite bind_run by (apply array_get_run; [lia|done]).
    eexists (), _. split.
    { apply GenerateValueInitializer_run. by eapply valid_index_lookup. }
    rewrite !fmap_app, cat_app. simpl.
    unfold cat at 2. simpl.
    by rewrite string_app_nil_r, string_app_assoc, (assoc_L (++)). }
  etrans; [exact Hrun|]. by rewrite Nat2Z.id, take_ge by lia.
Qed.

(** *** The sorted arrays *)

Lemma sorted_values_Permutation d : sorted_values d ≡ₚ value_indices d.
Proof. apply qsort_Permutation. Qed.

Lemma sorted_names_Permutation d : sorted_names d ≡ₚ name_indices d.
Proof. apply qsort_Permutation. Qed.

Lemma sorted_values_Sorted d :
  StronglySorted (cmp_le compare_value_indices_by_value_then_index) (sorted_values d).
Proof. apply qsort_Sorted, compare_value_Consistent. Qed.

Lemma sorted_names_Sorted d :
  StronglySorted (cmp_le compare_name_indices_by_name) (sorted_names d).
Proof. apply qsort_Sorted, compare_name_Consistent. Qed.

Lemma sorted_values_length d : length (sorted_values d) = length (values d).
Proof. by rewrite sorted_values_Permutation, value_indices_length. Qed.

Lemma sorted_names_length d : length (sorted_names d) = length (values d).
Proof. by rewrite sorted_names_Permutation, name_indices_length. Qed.

(** The comparison of lines 115-124 leaves no tie between two records
    of the array: every sorting function gives the same array. *)
Lemma sorted_values_unique d l :
  StronglySorted (cmp_le compare_value_indices_by_value_then_index) l →
  l ≡ₚ value_indices d → sorted_values d = l.
Proof.
  intros Hl Hp. eapply StronglySorted_unique; [apply _|apply sorted_values_Sorted|done|].
  by rewrite sorted_values_Permutation.
Qed.

Lemma recorded_valid d :
  Forall (λ x, valid_index d (ValueIndex.index x)) (recorded (sorted_values d)).
Proof.
  apply Forall_forall. intros x Hx%recorded_subseteq.
  rewrite sorted_values_Permutation in Hx.
  by apply (proj1 (Forall_forall _ _) (value_indices_valid d)).
Qed.

Lemma sorted_names_valid d :
  Forall (λ x, valid_index d (NameIndex.index x)) (sorted_names d).
Proof. rewrite sorted_names_Permutation. apply name_indices_valid. Qed.

(** *** GenerateEnumDescriptor *)

Lemma GenerateEnumDescriptor_run g b ind log :
  GenerateEnumDescriptor g (world b ind log)
  = Some ((), world (b +:+ EnumDescriptor_text ind (descriptor_ g)) ind
                    (log ++ EnumDescriptor_calls (descriptor_ g))).
Proof.
  unfold GenerateEnumDescriptor. set (d := descriptor_ g). cbv zeta.
  erewrite bind_run by apply fill_loop_run. cbv beta iota.
  fold (sorted_names d) (sorted_values d).
  assert (∀ w,
    (if decide (value_count d = 0) then mret (sorted_values d, 0)
     else for_ 1 (value_count d) record_unique (sorted_values d, 1)) w
    = Some ((recorded (sorted_values d), n_unique_values d), w)) as Hrec.
  { intros w. pose proof (sorted_values_length d) as Hlen.
    unfold n_unique_values, value_count. case_decide as Hcount.
    - destruct (sorted_values d); [done|]. simpl in Hlen. lia.
    - rewrite <- Hlen. apply record_loop_run. intros E. rewrite E in Hlen.
      simpl in Hlen. lia. }
  erewrite bind_run by apply Hrec. cbv beta iota.
  set (vars := <["unique_value_count" := _]> _).
  erewrite bind_run; cycle 1.
  { apply Print_run. run_print. subst vars. lookup_vars. run_writes. reflexivity. }
  set (log1 := log ++ seqZ 0 (value_count d)).
  match goal with |- context [world ?t ind log1] => set (b1 := t) end.
  assert (
    (if decide (value_count d > 0) then
       x ← array_get (recorded (sorted_values d)) 0;
       GenerateValueInitializer g (ValueIndex.index x);;
       for_ 1 (value_count d) (print_by_number g (recorded (sorted_values d))) ()
     else mret ()) (world b1 ind log1)
    = Some ((), world (b1 +:+ cat (value_initializer ind d <$> values_by_number d))
                  ind (log1 ++ values_by_number d))) as Hnum.
  { pose proof (sorted_values_length d) as Hlen.
    destruct (decide (value_count d > 0)) as [Hcount|Hcount].
    - unfold value_count. rewrite <- Hlen, <- (recorded_length (sorted_values d)).
      apply print_by_number_run; [|apply recorded_valid].
      intros E. apply (f_equal length) in E. rewrite recorded_length in E.
      unfold value_count in Hcount. simpl in E. lia.
    - unfold values_by_number.
      destruct (sorted_values d); [|unfold value_count in Hcount; simpl in Hlen; lia].
      unfold mret, M_ret. simpl. unfold cat. simpl.
      by rewrite string_app_nil_r, app_nil_r. }
  erewrite bind_run by exact Hnum.
  erewrite bind_run; cycle 1.
  { apply Print_run. run_print. run_writes. reflexivity. }
  erewrite bind_run; cycle 1.
  { apply Print_run. run_print. subst vars. lookup_vars. run_writes. reflexivity. }
  match goal with |- context [world ?t ind (log1 ++ _)] => set (b2 := t) end.
  pose proof (print_by_name_run g (sorted_names d) b2 ind
                (log1 ++ values_by_number d) (sorted_names_valid d)) as Hname.
  rewrite sorted_names_length in Hname.
  erewrite bind_run by exact Hname.
  erewrite bind_run; cycle 1.
  { apply Print_run. run_print. run_writes. reflexivity. }
  fold (values_by_name d).
  replace (log ++ EnumDescriptor_calls d)
    with ((log1 ++ values_by_number d) ++ values_by_name d)
    by (unfold EnumDescriptor_calls, log1; by rewrite <- !(assoc_L (++))).
  apply Print_run. run_print.
  subst vars. lookup_vars. run_writes. do 2 f_equal.
  subst b2 b1. unfold EnumDescriptor_text, table_text, descriptor_text,
    descriptor_fields, field_lines, values_by_name, NL, DQ.
  by str_norm.
Qed.

(** *** The three renderers in a row *)

Lemma full_pipeline_run g b ind log :
  ∃ log', full_pipeline g (world b ind log)
          = Some ((), world (b +:+ pipeline_text ind g) ind log').
Proof.
  unfold full_pipeline, pipeline_text.
  destruct (GenerateDefinition_run g b ind log) as (log1 & H1).
  erewrite bind_run by exact H1.
  erewrite bind_run by apply GenerateDescriptorDeclarations_run.
  eexists. rewrite GenerateEnumDescriptor_run. by rewrite !string_app_assoc.
Qed.

(** ** The number of unique values *)

(** In an array sorted by value, the selected records have strictly
    increasing values. *)
Lemma unique_from_increasing p l :
  StronglySorted (λ a b, ValueIndex.value a ≤ ValueIndex.value b) (p :: l) →
  Forall (λ x, ValueIndex.value p < ValueIndex.value x) (unique_from p l)
  ∧ StronglySorted (λ a b, ValueIndex.value a < ValueIndex.value b) (unique_from p l).
Proof.
  revert p. induction l as [|y l IH]; intros p Hs; simpl.
  - split; constructor.
  - apply StronglySorted_inv in Hs as [Hs Hp].
    apply Forall_cons in Hp as [Hpy Hpl].
    destruct (IH y Hs) as [Hy Hu].
    case_decide as Hne.
    + split.
      * constructor; [lia|]. eapply Forall_impl; [exact Hy|]. simpl. lia.
      * by constructor.
    + split; [|done]. eapply Forall_impl; [exact Hy|]. simpl. lia.
Qed.

Lemma increasing_NoDup (k : list ValueIndex.t) :
  StronglySorted (λ a b, ValueIndex.value a < ValueIndex.value b) k →
  NoDup (ValueIndex.value <$> k).
Proof.
  induction 1 as [|x k Hk IH Hx]; [constructor|].
  rewrite fmap_cons. apply NoDup_cons. split; [|done].
  intros (y & Hxy & Hy)%list_elem_of_fmap.
  apply (proj1 (Forall_forall _ _) Hx) in Hy. lia.
Qed.

Lemma first_of_runs_NoDup l :
  StronglySorted (λ a b, ValueIndex.value a ≤ ValueIndex.value b) l →
  NoDup (ValueIndex.value <$> first_of_runs l).
Proof.
  intros Hs. apply increasing_NoDup. destruct l as [|p l]; simpl; [constructor|].
  destruct (unique_from_increasing p l Hs) as [Hp Hu]. by constructor.
Qed.

(** Every value of the array is the value of a selected record. *)
Lemma unique_from_values p l x :
  x ∈ l →
  ValueIndex.value x = ValueIndex.value p
  ∨ ∃ u, u ∈ unique_from p l ∧ ValueIndex.value u = ValueIndex.value x.
Proof.
  revert p. induction l as [|y l IH]; intros p Hx; [by apply elem_of_nil in Hx|].
  simpl. apply elem_of_cons in Hx as [->|Hx].
  - case_decide as Hne.
    + right. exists y. split; [left|done].
    + left. by destruct (decide (ValueIndex.value p = ValueIndex.value y)).
  - destruct (IH y Hx) as [Hxy|(u & Hu & Hux)].
    + case_decide as Hne.
      * right. exists y. split; [left|done].
      * left. rewrite Hxy.
        by destruct (decide (ValueIndex.value p = ValueIndex.value y)).
    + right. exists u. split; [|done]. case_decide; [by right|done].
Qed.

Lemma first_of_runs_values l z :
  z ∈ ValueIndex.value <$> first_of_runs l ↔ z ∈ ValueIndex.value <$> l.
Proof.
  split.
  - intros (x & -> & Hx)%list_elem_of_fmap. apply list_elem_of_fmap_2.
    by apply first_of_runs_subseteq.
  - intros (x & -> & Hx)%list_elem_of_fmap. destruct l as [|p l]; [by apply elem_of_nil in Hx|].
    simpl. apply elem_of_cons in Hx as [->|Hx]; [left|].
    destruct (unique_from_values p l x Hx) as [->|(u & Hu & <-)]; [left|].
    right. by apply list_elem_of_fmap_2.
Qed.

Lemma n_unique_values_distinct d :
  n_unique_values d = Z.of_nat (distinct_numbers d).
Proof.
  unfold n_unique_values, distinct_numbers. f_equal.
  rewrite <- (length_fmap ValueIndex.value). apply Permutation_length.
  apply NoDup_Permutation.
  - apply first_of_runs_NoDup.
    eapply StronglySorted_impl; [|apply sorted_values_Sorted].
    intros a b Hab%compare_value_le. simpl. lia.
  - apply NoDup_remove_dups.
  - intros z. rewrite first_of_runs_values, elem_of_remove_dups.
    by rewrite sorted_values_Permutation, value_indices_values.
Qed.

End Runs.

(** * The claims *)

Section Declaration.
Context `{!CHelpers}.

(** C6. The members of the type declaration that [GenerateDefinition]
    prints are the values of the descriptor in declaration order: the
    text between the opening and the closing line is the concatenation
    of one member line per element of [values d], taken in the order of
    [values d], and the renderer takes no sorting function at all. *)
Theorem definition_members_in_declaration_order
    (g : EnumGenerator) (b ind : string) (log : list Z) :
  let d := descriptor_ g in
  (∃ log', GenerateDefinition g (world b ind log)
     = Some ((), world
         (b +:+ ind +:+ "typedef enum _" +:+ FullNameToC (full_name d) +:+ " {" +:+ NL
          +:+ cat (enum_member (ind +:+ "  ") d <$> values d)
          +:+ ind +:+ "} " +:+ FullNameToC (full_name d) +:+ ";" +:+ NL)
         ind log'))
  ∧ ∀ k, (enum_member (ind +:+ "  ") d <$> values d) !! k
         = enum_member (ind +:+ "  ") d <$> (values d !! k).
Proof.
  intros d. split.
  - destruct (GenerateDefinition_run g b ind log) as (log' & Hrun).
    exists log'. rewrite Hrun. unfold Definition_text. fold d.
    by rewrite ?string_app_assoc.
  - intros k. apply list_lookup_fmap.
Qed.

(** C8. [GenerateDescriptorDeclarations] prints one line, the extern
    declaration of the symbol [FullNameToLower (full_name) ++ __descriptor];
    the qualifier stands before [const], followed by one space, when it
    is not empty, and nothing stands there when it is empty. *)
Theorem descriptor_declaration_text
    (g : EnumGenerator) (b ind : string) (log : list Z) :
  GenerateDescriptorDeclarations g (world b ind log)
  = Some ((), world
      (b +:+ ind +:+ "extern "
       +:+ (if decide (dllexport_decl_ g = "") then ""
            else dllexport_decl_ g +:+ " ")
       +:+ "const ProtobufCEnumDescriptor    "
       +:+ FullNameToLower (full_name (descriptor_ g)) +:+ "__descriptor;" +:+ NL)
      ind log).
Proof.
  rewrite GenerateDescriptorDeclarations_run. unfold DescriptorDeclarations_text.
  by rewrite ?string_app_assoc.
Qed.

End Declaration.

Lemma string_length_app (a b : string) :
  String.length (a +:+ b) = (String.length a + String.length b)%nat.
Proof. induction a as [|x a IH]; [done|]. rewrite string_app_cons. simpl. by rewrite IH. Qed.

Section Claims.
Context `{!CHelpers, !Qsort}.

(** C4. The descriptor record that [GenerateEnumDescriptor] prints
    after the two tables holds, in this order: the full name, the short
    name, the C type name, the package name, the number of distinct
    integers among the values, the name of the values-by-number table,
    the number of values, and the name of the values-by-name table. *)
Theorem descriptor_record_fields
    (g : EnumGenerator) (b ind : string) (log : list Z) :
  let d := descriptor_ g in
  GenerateEnumDescriptor g (world b ind log)
  = Some ((), world
      (b +:+ table_text ind d "number" (n_unique_values d) (values_by_number d)
       +:+ table_text ind d "name" (value_count d) (values_by_name d)
       +:+ ind +:+ "const ProtobufCEnumDescriptor "
       +:+ FullNameToLower (full_name d) +:+ "__descriptor =" +:+ NL
       +:+ ind +:+ "{" +:+ NL
       +:+ field_lines ind (descriptor_fields d (n_unique_values d))
       +:+ ind +:+ "};" +:+ NL)
      ind (log ++ EnumDescriptor_calls d))
  ∧ descriptor_fields d (n_unique_values d)
    = [ DQ +:+ full_name d +:+ DQ;
        DQ +:+ enum_name d +:+ DQ;
        DQ +:+ FullNameToC (full_name d) +:+ DQ;
        DQ +:+ package d +:+ DQ;
        SimpleItoa (Z.of_nat (distinct_numbers d));
        FullNameToLower (full_name d) +:+ "_enum_values_by_number";
        SimpleItoa (Z.of_nat (length (values d)));
        FullNameToLower (full_name d) +:+ "_enum_values_by_name" ].
Proof.
  intros d. split.
  - rewrite GenerateEnumDescriptor_run. fold d.
    unfold EnumDescriptor_text, descriptor_text. by rewrite ?string_app_assoc.
  - unfold descriptor_fields. by rewrite n_unique_values_distinct.
Qed.

(** C5. The values-by-name table that [GenerateEnumDescriptor] prints
    has one record per value of the descriptor, values that share an
    integer included: its indices are a permutation of [0 .. N-1]. The
    names of two records that follow each other are in byte-wise
    lexicographic order, the names being protobuf identifiers (no NUL
    byte, which would end the C string that [strcmp] reads). *)
Theorem values_by_name_sorted
    (g : EnumGenerator) (b ind : string) (log : list Z) :
  let d := descriptor_ g in
  Forall (λ v, NUL_free (name v)) (values d) →
  GenerateEnumDescriptor g (world b ind log)
  = Some ((), world
      (b +:+ table_text ind d "number" (n_unique_values d) (values_by_number d)
       +:+ table_text ind d "name" (value_count d) (values_by_name d)
       +:+ descriptor_text ind d (n_unique_values d))
      ind (log ++ EnumDescriptor_calls d))
  ∧ values_by_name d ≡ₚ seqZ 0 (value_count d)
  ∧ length (values_by_name d) = length (values d)
  ∧ ∀ k i i' v v',
      values_by_name d !! k = Some i → values_by_name d !! S k = Some i' →
      values d !! Z.to_nat i = Some v → values d !! Z.to_nat i' = Some v' →
      (name v ≤ name v')%string.
Proof.
  intros d Hnul. split; [|split; [|split]].
  - rewrite GenerateEnumDescriptor_run. fold d.
    unfold EnumDescriptor_text. by rewrite ?string_app_assoc.
  - unfold values_by_name. by rewrite sorted_names_Permutation, name_indices_indices.
  - unfold values_by_name. by rewrite length_fmap, sorted_names_length.
  - intros k i i' v v' Hi Hi' Hv Hv'. unfold values_by_name in Hi, Hi'.
    apply list_lookup_fmap_Some in Hi as (ni & -> & Hni).
    apply list_lookup_fmap_Some in Hi' as (ni' & -> & Hni').
    pose proof (StronglySorted_lookup _ _ k (S k) ni ni'
                  (sorted_names_Sorted d) (Nat.lt_succ_diag_r k) Hni Hni') as Hle.
    assert (∀ n k, sorted_names d !! k = Some n → ∀ u,
              values d !! Z.to_nat (NameIndex.index n) = Some u →
              NameIndex.name n = name u ∧ NUL_free (name u)) as Hname.
    { intros n k0 Hn u Hu. apply list_elem_of_lookup_2 in Hn.
      rewrite sorted_names_Permutation in Hn.
      apply elem_of_name_indices in Hn as (j & vj & Hvj & ->). simpl in *.
      rewrite Nat2Z.id in Hu. simplify_eq. split; [done|].
      by apply (Forall_lookup_1 _ _ _ _ Hnul Hvj). }
    destruct (Hname ni k Hni v Hv) as [Hn Hf].
    destruct (Hname ni' (S k) Hni' v' Hv') as [Hn' Hf'].
    unfold cmp_le, compare_name_indices_by_name in Hle.
    rewrite Hn, Hn' in Hle. apply strcmp_le in Hle.
    unfold NUL_free in Hf, Hf'. by rewrite Hf, Hf' in Hle.
Qed.

(** C7. The three renderers, run one after the other, append a text
    that depends on the generator and on the indentation of the printer
    only; run again on the printer they leave, with the same descriptor
    and the same qualifier, they append the same text once more. *)
Theorem full_pipeline_deterministic
    (g : EnumGenerator) (b ind : string) (log : list Z) :
  ∃ log1 log2,
    full_pipeline g (world b ind log)
    = Some ((), world (b +:+ pipeline_text ind g) ind log1)
    ∧ full_pipeline g (world (b +:+ pipeline_text ind g) ind log1)
      = Some ((), world ((b +:+ pipeline_text ind g) +:+ pipeline_text ind g)
                        ind log2).
Proof.
  destruct (full_pipeline_run g b ind log) as (log1 & H1).
  destruct (full_pipeline_run g (b +:+ pipeline_text ind g) ind log1) as (log2 & H2).
  by exists log1, log2.
Qed.

(** C9. When the descriptor has a value, the first record of the
    values-by-number table that [GenerateEnumDescriptor] prints is the
    record of a value whose integer is the smallest of all and whose
    declaration index is the smallest among the values of that integer. *)
Theorem values_by_number_first
    (g : EnumGenerator) (b ind : string) (log : list Z) :
  let d := descriptor_ g in
  values d ≠ [] →
  GenerateEnumDescriptor g (world b ind log)
  = Some ((), world
      (b +:+ table_text ind d "number" (n_unique_values d) (values_by_number d)
       +:+ table_text ind d "name" (value_count d) (values_by_name d)
       +:+ descriptor_text ind d (n_unique_values d))
      ind (log ++ EnumDescriptor_calls d))
  ∧ ∃ (i0 : nat) v0 rest,
      values_by_number d = Z.of_nat i0 :: rest
      ∧ values d !! i0 = Some v0
      ∧ ∀ j v, values d !! j = Some v →
          number v0 < number v ∨ (number v0 = number v ∧ (i0 ≤ j)%nat).
Proof.
  intros d Hne. split.
  { rewrite GenerateEnumDescriptor_run. fold d.
    unfold EnumDescriptor_text. by rewrite ?string_app_assoc. }
  pose proof (sorted_values_Sorted d) as Hs.
  pose proof (sorted_values_Permutation d) as Hp.
  pose proof (sorted_values_length d) as Hlen.
  unfold values_by_number.
  destruct (sorted_values d) as [|x0 vs] eqn:E.
  { destruct (values d); [done|]. simpl in Hlen. lia. }
  destruct (first_of_runs_recorded_head x0 vs) as (rest & ->).
  assert (x0 ∈ value_indices d) as Hx0 by (rewrite <- Hp; left).
  apply elem_of_value_indices in Hx0 as (i0 & v0 & Hv0 & ->).
  exists i0, v0, (ValueIndex.index <$> rest). split; [done|]. split; [done|].
  intros j v Hv.
  assert ({| ValueIndex.value := number v; ValueIndex.index := Z.of_nat j |}
            ∈ value_indices d) as Hj.
  { apply elem_of_value_indices. by exists j, v. }
  rewrite <- Hp in Hj. apply StronglySorted_inv in Hs as [_ Hall].
  apply elem_of_cons in Hj as [Hj|Hj].
  - simplify_eq. right. split; [done|]. lia.
  - apply (proj1 (Forall_forall _ _) Hall) in Hj.
    apply compare_value_le in Hj. simpl in Hj. lia.
Qed.

(** C10. The qualifier of the generator has no part in what
    [GenerateDefinition] and [GenerateEnumDescriptor] do: two generators
    of one descriptor behave alike whatever their qualifiers are. It
    has a part in [GenerateDescriptorDeclarations]: a qualifier that is
    not empty gives another text than the empty one. *)
Theorem dllexport_decl_only_in_declarations
    (d : EnumDescriptor) (q1 q2 : string) (w : World) :
  GenerateDefinition {| descriptor_ := d; dllexport_decl_ := q1 |} w
  = GenerateDefinition {| descriptor_ := d; dllexport_decl_ := q2 |} w
  ∧ GenerateEnumDescriptor {| descriptor_ := d; dllexport_decl_ := q1 |} w
    = GenerateEnumDescriptor {| descriptor_ := d; dllexport_decl_ := q2 |} w
  ∧ ∀ b ind log,
      q1 ≠ "" →
      GenerateDescriptorDeclarations
        {| descriptor_ := d; dllexport_decl_ := q1 |} (world b ind log)
      ≠ GenerateDescriptorDeclarations
          {| descriptor_ := d; dllexport_decl_ := "" |} (world b ind log).
Proof.
  split; [reflexivity|]. split; [reflexivity|].
  intros b ind log Hq. rewrite !GenerateDescriptorDeclarations_run.
  unfold DescriptorDeclarations_text. simpl. rewrite decide_False by done.
  intros Heq. injection Heq as Heq.
  do 2 apply (inj (String.app _)) in Heq.
  apply (inj (String.app "extern ")) in Heq.
  apply (f_equal String.length) in Heq.
  rewrite !string_length_app in Heq. simpl in Heq. lia.
Qed.

(** C2. On a descriptor without values every renderer runs to its end
    and prints vacuous output: [GenerateDefinition] a declaration
    without members, [GenerateDescriptorDeclarations] its one line, and
    [GenerateEnumDescriptor] two tables of size 0 without a record and
    a descriptor record with both counts at 0. No element of the value
    sequence is read: a read through any pointer would fault, the
    sequence being empty, and no run faults. [GenerateEnumDescriptor]
    does not call [EnumDescriptor::value] at all; [GenerateDefinition]
    forms the address [value(0)] twice (lines 51-52) and never reads
    through it, its loop having no iteration. *)
Theorem empty_enum_vacuous_output
    (fn en pk q b ind : string) (log : list Z) :
  let d := {| full_name := fn; enum_name := en; package := pk; values := [] |} in
  let g := {| descriptor_ := d; dllexport_decl_ := q |} in
  let empty_table (table : string) :=
    ind +:+ "const ProtobufCEnumValue " +:+ FullNameToLower fn
    +:+ "_enum_values_by_" +:+ table +:+ "[" +:+ SimpleItoa 0 +:+ "] =" +:+ NL
    +:+ ind +:+ "{" +:+ NL
    +:+ ind +:+ "};" +:+ NL in
  value_count d = 0
  ∧ (∀ (p : value_ptr) (w : World), deref d p w = None)
  ∧ GenerateDefinition g (world b ind log)
    = Some ((), world
        (b +:+ ind +:+ "typedef enum _" +:+ FullNameToC fn +:+ " {" +:+ NL
         +:+ ind +:+ "} " +:+ FullNameToC fn +:+ ";" +:+ NL)
        ind (log ++ [0; 0]))
  ∧ GenerateDescriptorDeclarations g (world b ind log)
    = Some ((), world (b +:+ DescriptorDeclarations_text ind g) ind log)
  ∧ GenerateEnumDescriptor g (world b ind log)
    = Some ((), world
        (b +:+ empty_table "number" +:+ empty_table "name"
         +:+ ind +:+ "const ProtobufCEnumDescriptor "
         +:+ FullNameToLower fn +:+ "__descriptor =" +:+ NL
         +:+ ind +:+ "{" +:+ NL
         +:+ field_lines ind (descriptor_fields d 0)
         +:+ ind +:+ "};" +:+ NL)
        ind log)
  ∧ descriptor_fields d 0
    = [ DQ +:+ fn +:+ DQ;
        DQ +:+ en +:+ DQ;
        DQ +:+ FullNameToC fn +:+ DQ;
        DQ +:+ pk +:+ DQ;
        SimpleItoa 0;
        FullNameToLower fn +:+ "_enum_values_by_number";
        SimpleItoa 0;
        FullNameToLower fn +:+ "_enum_values_by_name" ].
Proof.
  intros d g empty_table. split; [done|]. split; [|split; [|split; [|split; [|done]]]].
  - intros p w. unfold deref. by case_decide.
  - rewrite GenerateDefinition_run_empty by done.
    unfold Definition_text. simpl. unfold cat. simpl. by rewrite ?string_app_assoc.
  - apply GenerateDescriptorDeclarations_run.
  - rewrite GenerateEnumDescriptor_run.
    assert (sorted_values d = []) as Hv.
    { apply Permutation_nil_r. by rewrite sorted_values_Permutation. }
    assert (sorted_names d = []) as Hn.
    { apply Permutation_nil_r. by rewrite sorted_names_Permutation. }
    unfold EnumDescriptor_text, EnumDescriptor_calls, n_unique_values,
      values_by_number, values_by_name, table_text, descriptor_text, empty_table.
    simpl descriptor_. rewrite Hv, Hn. simpl. unfold cat. simpl.
    by rewrite app_nil_r, ?string_app_assoc.
Qed.

End Claims.

(** ** Where the code departs from the claims *)

Section Departures.
Context `{!CHelpers, !Qsort}.

(** Three values of one integer before a value of a greater one. *)
Definition repeated : EnumDescriptor := {|
  full_name := "Foo"; enum_name := "Foo"; package := "";
  values := [ {| name := "A"; number := 1 |}; {| name := "B"; number := 1 |};
              {| name := "C"; number := 1 |}; {| name := "D"; number := 2 |} ];
|}.

Lemma sorted_values_repeated : sorted_values repeated = value_indices repeated.
Proof.
  apply sorted_values_unique; [|done].
  repeat (apply SSorted_cons || apply SSorted_nil || apply Forall_cons_2
          || apply Forall_nil_2); by vm_compute.
Qed.

(** C1 (the code departs from it). On [repeated] the integers are 1
    and 2 and the table is declared with two records, but
    [GenerateEnumDescriptor] prints four: A (1), D (2), C (1), D (2).
    The loop of lines 167-174 compares the neighbours of the array that
    the loop of lines 157-160 has overwritten. Any sorting function
    gives this result. *)
Theorem values_by_number_repeats_values
    (q b ind : string) (log : list Z) :
  let g := {| descriptor_ := repeated; dllexport_decl_ := q |} in
  distinct_numbers repeated = 2%nat
  ∧ sorted_values repeated
    = [ {| ValueIndex.value := 1; ValueIndex.index := 0 |};
        {| ValueIndex.value := 1; ValueIndex.index := 1 |};
        {| ValueIndex.value := 1; ValueIndex.index := 2 |};
        {| ValueIndex.value := 2; ValueIndex.index := 3 |} ]
  ∧ recorded (sorted_values repeated)
    = [ {| ValueIndex.value := 1; ValueIndex.index := 0 |};
        {| ValueIndex.value := 2; ValueIndex.index := 3 |};
        {| ValueIndex.value := 1; ValueIndex.index := 2 |};
        {| ValueIndex.value := 2; ValueIndex.index := 3 |} ]
  ∧ GenerateEnumDescriptor g (world b ind log)
    = Some ((), world
        (b +:+ table_text ind repeated "number" 2 [0; 3; 2; 3]
         +:+ table_text ind repeated "name" 4 (values_by_name repeated)
         +:+ descriptor_text ind repeated 2)
        ind (log ++ [0; 1; 2; 3] ++ [0; 3; 2; 3] ++ values_by_name repeated)).
Proof.
  intros g. split; [done|]. split; [by rewrite sorted_values_repeated|].
  split; [by rewrite sorted_values_repeated|].
  rewrite GenerateEnumDescriptor_run.
  unfold EnumDescriptor_text, EnumDescriptor_calls, n_unique_values, values_by_number.
  simpl descriptor_. rewrite sorted_values_repeated.
  by rewrite ?string_app_assoc.
Qed.

End Departures.

(** ** Examples *)

#[local] Existing Instance SpecHelpers.spec_helpers.
#[local] Existing Instance merge_qsort.

(** The enum of the example of the specification. *)
Definition colors : EnumDescriptor := {|
  full_name := "pkg.Color"; enum_name := "Color"; package := "pkg";
  values := [ {| name := "RED"; number := 0 |}; {| name := "GREEN"; number := 5 |};
              {| name := "BLUE"; number := 5 |}; {| name := "ALPHA"; number := -1 |} ];
|}.

Definition colors_generator : EnumGenerator :=
  {| descriptor_ := colors; dllexport_decl_ := "" |}.

(** An enum with a value in lower case. *)
Definition lower_case : EnumDescriptor := {|
  full_name := "Foo"; enum_name := "Foo"; package := "";
  values := [ {| name := "red"; number := 0 |} ];
|}.

(** C3 (the code departs from it). For the value [red] of the enum
    [Foo], [GenerateDefinition] declares the member [FOO__red], the name
    as it is written, where the record of the same value in the tables
    names the constant [FOO__RED], the name in upper case. *)
Theorem definition_member_not_upper_cased :
  GenerateDefinition {| descriptor_ := lower_case; dllexport_decl_ := "" |}
    (world "" "" [])
  = Some ((), world
      ("typedef enum _Foo {" +:+ NL +:+ "  FOO__red = 0," +:+ NL +:+ "} Foo;" +:+ NL)
      "" [0; 0; 0; 0; 0; 0])
  ∧ FullNameToUpper (full_name lower_case) +:+ "__" +:+ ToUpper "red" = "FOO__RED"
  ∧ GenerateValueInitializer {| descriptor_ := lower_case; dllexport_decl_ := "" |} 0
      (world "" "" [])
    = Some ((), world
        ("  { " +:+ DQ +:+ "red" +:+ DQ +:+ ", " +:+ DQ +:+ "FOO__RED" +:+ DQ
         +:+ ", 0 }," +:+ NL)
        "" [0]).
Proof. repeat split; by vm_compute. Qed.

(** The example of the specification: the by-number table holds ALPHA,
    RED and GREEN, the by-name table ALPHA, BLUE, GREEN and RED. *)
Example colors_tables :
  values_by_number colors = [3; 0; 1]
  ∧ n_unique_values colors = 3
  ∧ values_by_name colors = [3; 2; 1; 0].
Proof. repeat split; by vm_compute. Qed.

(** C5 at [colors]: no name of it holds a NUL byte. *)
Lemma values_by_name_sorted_witness :
  Forall (λ v, NUL_free (name v)) (values colors)
  ∧ (GenerateEnumDescriptor colors_generator (world "" "" [])
     = Some ((), world
         ("" +:+ table_text "" colors "number" (n_unique_values colors)
                   (values_by_number colors)
          +:+ table_text "" colors "name" (value_count colors) (values_by_name colors)
          +:+ descriptor_text "" colors (n_unique_values colors))
         "" ([] ++ EnumDescriptor_calls colors))
     ∧ values_by_name colors ≡ₚ seqZ 0 (value_count colors)
     ∧ length (values_by_name colors) = length (values colors)
     ∧ ∀ k i i' v v',
         values_by_name colors !! k = Some i →
         values_by_name colors !! S k = Some i' →
         values colors !! Z.to_nat i = Some v →
         values colors !! Z.to_nat i' = Some v' →
         (name v ≤ name v')%string).
Proof.
  assert (Forall (λ v, NUL_free (name v)) (values colors)) as Hnul
    by (repeat constructor).
  split; [exact Hnul|].
  exact (values_by_name_sorted colors_generator "" "" [] Hnul).
Defined.

(** C9 at [colors]: it has four values. *)
Lemma values_by_number_first_witness :
  values colors ≠ []
  ∧ (GenerateEnumDescriptor colors_generator (world "" "" [])
     = Some ((), world
         ("" +:+ table_text "" colors "number" (n_unique_values colors)
                   (values_by_number colors)
          +:+ table_text "" colors "name" (value_count colors) (values_by_name colors)
          +:+ descriptor_text "" colors (n_unique_values colors))
         "" ([] ++ EnumDescriptor_calls colors))
     ∧ ∃ (i0 : nat) v0 rest,
         values_by_number colors = Z.of_nat i0 :: rest
         ∧ values colors !! i0 = Some v0
         ∧ ∀ j v, values colors !! j = Some v →
             number v0 < number v ∨ (number v0 = number v ∧ (i0 ≤ j)%nat)).
Proof.
  assert (values colors ≠ []) as Hne by done.
  split; [exact Hne|].
  exact (values_by_number_first colors_generator "" "" [] Hne).
Defined.

(** * Further properties of the renderers *)

(** ** The selection of runs, once more *)

Lemma unique_from_value_eq p p' l :
  ValueIndex.value p = ValueIndex.value p' → unique_from p l = unique_from p' l.
Proof. intros Hp. destruct l as [|y l]; simpl; [done|]. by rewrite Hp. Qed.

Lemma unique_from_app p l1 l2 :
  unique_from p (l1 ++ l2)
  = unique_from p l1 ++ unique_from (default p (last l1)) l2.
Proof.
  revert p. induction l1 as [|y l1 IH]; intros p; simpl; [done|].
  rewrite IH. rewrite last_cons. destruct (last l1) as [z|]; simpl;
    by destruct (decide (ValueIndex.value p ≠ ValueIndex.value y)).
Qed.

(** A selection holds no two neighbours of one value: selecting from
    it again changes nothing. *)
Lemma unique_from_idem p l : unique_from p (unique_from p l) = unique_from p l.
Proof.
  revert p. induction l as [|y l IH]; intros p; simpl; [done|].
  destruct (decide (ValueIndex.value p ≠ ValueIndex.value y)) as [Hne|Heq]; simpl.
  - rewrite decide_True by done. by rewrite IH.
  - rewrite (unique_from_value_eq p y); [apply IH|].
    by destruct (decide (ValueIndex.value p = ValueIndex.value y)).
Qed.

Lemma unique_from_nil p l :
  unique_from p l = [] ↔ Forall (λ x, ValueIndex.value x = ValueIndex.value p) l.
Proof.
  revert p. induction l as [|y l IH]; intros p; simpl.
  - split; [constructor|done].
  - destruct (decide (ValueIndex.value p ≠ ValueIndex.value y)) as [Hne|Heq].
    + split; [done|]. intros [Hy _]%Forall_cons. by destruct Hne.
    + assert (ValueIndex.value p = ValueIndex.value y) as Hpy
        by (by destruct (decide (ValueIndex.value p = ValueIndex.value y))).
      rewrite IH, Forall_cons, Hpy. split; [by split|by intros [_ ?]].
Qed.

(** What the printing loop selects from the overwritten array: the
    records that the recording loop has selected, then whatever it
    selects from the rest of the array, starting from the last record
    selected. *)
Lemma first_of_runs_recorded x vs :
  first_of_runs (recorded (x :: vs))
  = first_of_runs (x :: vs)
    ++ unique_from (default x (last (unique_from x vs)))
         (drop (length (first_of_runs (x :: vs))) (x :: vs)).
Proof.
  unfold recorded. simpl. by rewrite unique_from_app, unique_from_idem.
Qed.

(** The last record selected carries the value of the last record. *)
Lemma unique_from_last_value p l :
  ValueIndex.value (default p (last (unique_from p l)))
  = ValueIndex.value (default p (last l)).
Proof.
  revert p. induction l as [|y l IH]; intros p; simpl; [done|].
  rewrite (last_cons y l).
  assert (default p (match last l with Some z => Some z | None => Some y end)
          = default y (last l)) as -> by (by destruct (last l)).
  destruct (decide (ValueIndex.value p ≠ ValueIndex.value y)) as [Hne|Heq].
  - rewrite last_cons.
    assert (default p (match last (unique_from y l) with
                       | Some z => Some z | None => Some y end)
            = default y (last (unique_from y l))) as ->
      by (by destruct (last (unique_from y l))).
    apply IH.
  - rewrite <- IH. destruct (last (unique_from y l)); simpl; [done|].
    by destruct (decide (ValueIndex.value p = ValueIndex.value y)).
Qed.

Section Further.
Context `{!CHelpers, !Qsort}.

(** ** The records that the recording loop selects *)

Lemma sorted_values_by_value d :
  StronglySorted (λ a b, ValueIndex.value a ≤ ValueIndex.value b) (sorted_values d).
Proof.
  eapply StronglySorted_impl; [|apply sorted_values_Sorted].
  intros a b Hab%compare_value_le. simpl. lia.
Qed.

Lemma first_of_runs_increasing l :
  StronglySorted (λ a b, ValueIndex.value a ≤ ValueIndex.value b) l →
  StronglySorted (λ a b, ValueIndex.value a < ValueIndex.value b) (first_of_runs l).
Proof.
  intros Hs. destruct l as [|p l]; simpl; [constructor|].
  destruct (unique_from_increasing p l Hs) as [Hp Hu]. by constructor.
Qed.

(** In an array sorted by value and index, a selected record has the
    least index among the records of its value. *)
Lemma unique_from_least_index p l x y :
  StronglySorted (cmp_le compare_value_indices_by_value_then_index) (p :: l) →
  x ∈ unique_from p l → y ∈ p :: l →
  ValueIndex.value y = ValueIndex.value x →
  ValueIndex.index x ≤ ValueIndex.index y.
Proof.
  revert p. induction l as [|z l IH]; intros p Hs Hx Hy Hv; simpl in Hx.
  { by apply elem_of_nil in Hx. }
  apply StronglySorted_inv in Hs as [Hs Hp].
  pose proof (Forall_inv Hp) as Hpz%compare_value_le.
  pose proof Hs as [_ Hz]%StronglySorted_inv.
  assert (Forall (λ u, ValueIndex.value z < ValueIndex.value u) (unique_from z l))
    as Hinc.
  { apply unique_from_increasing. eapply StronglySorted_impl; [|exact Hs].
    intros a b Hab%compare_value_le. simpl. lia. }
  rewrite Forall_forall in Hinc, Hz.
  destruct (decide (ValueIndex.value p ≠ ValueIndex.value z)) as [Hne|Heq].
  - apply elem_of_cons in Hx as [->|Hx].
    + apply elem_of_cons in Hy as [->|Hy]; [done|].
      apply elem_of_cons in Hy as [->|Hy]; [done|].
      apply Hz, compare_value_le in Hy. lia.
    + apply elem_of_cons in Hy as [->|Hy]; [|by apply (IH z)].
      apply Hinc in Hx. lia.
  - apply elem_of_cons in Hy as [->|Hy]; [|by apply (IH z)].
    apply Hinc in Hx. lia.
Qed.

Lemma first_of_runs_least_index l x y :
  StronglySorted (cmp_le compare_value_indices_by_value_then_index) l →
  x ∈ first_of_runs l → y ∈ l →
  ValueIndex.value y = ValueIndex.value x →
  ValueIndex.index x ≤ ValueIndex.index y.
Proof.
  intros Hs Hx Hy Hv. destruct l as [|p l]; simpl in Hx; [by apply elem_of_nil in Hx|].
  apply elem_of_cons in Hx as [->|Hx]; [|by eapply unique_from_least_index].
  apply elem_of_cons in Hy as [->|Hy]; [done|].
  apply StronglySorted_inv in Hs as [_ Hp]. rewrite Forall_forall in Hp.
  apply Hp, compare_value_le in Hy. lia.
Qed.

Lemma elem_of_sorted_values d x :
  x ∈ sorted_values d ↔
  ∃ j v, values d !! j = Some v
         ∧ x = {| ValueIndex.value := number v; ValueIndex.index := Z.of_nat j |}.
Proof. by rewrite sorted_values_Permutation, elem_of_value_indices. Qed.

(** The printed table starts with the selected records. *)
Lemma values_by_number_app d :
  ∃ extra,
    values_by_number d
    = (ValueIndex.index <$> first_of_runs (sorted_values d)) ++ extra.
Proof.
  unfold values_by_number. destruct (sorted_values d) as [|x vs].
  - by exists [].
  - rewrite first_of_runs_recorded, fmap_app. by eexists.
Qed.

Lemma values_by_number_prefix d :
  take (Z.to_nat (n_unique_values d)) (values_by_number d)
  = ValueIndex.index <$> first_of_runs (sorted_values d).
Proof.
  destruct (values_by_number_app d) as (extra & ->).
  unfold n_unique_values. rewrite Nat2Z.id.
  by rewrite take_app_length' by (by rewrite length_fmap).
Qed.

(** A record of the selection, read through its index. *)
Lemma first_of_runs_sorted_lookup d k i v :
  (ValueIndex.index <$> first_of_runs (sorted_values d)) !! k = Some i →
  values d !! Z.to_nat i = Some v →
  first_of_runs (sorted_values d) !! k
  = Some {| ValueIndex.value := number v; ValueIndex.index := i |}.
Proof.
  intros (u & -> & Hu)%list_lookup_fmap_Some Hv. rewrite Hu. f_equal.
  apply list_elem_of_lookup_2, first_of_runs_subseteq in Hu.
  apply elem_of_sorted_values in Hu as (j & vj & Hvj & ->). simpl in *.
  rewrite Nat2Z.id in Hv. by simplify_eq.
Qed.

(** X3. The first [unique_value_count] records of the values-by-number
    table, the size the table is declared with, are what the comments
    of the source announce: one record per distinct integer, in
    strictly ascending order of the integers, each the first declared
    value of its integer. *)
Theorem values_by_number_declared_part
    (g : EnumGenerator) (b ind : string) (log : list Z) :
  let d := descriptor_ g in
  let declared := take (Z.to_nat (n_unique_values d)) (values_by_number d) in
  GenerateEnumDescriptor g (world b ind log)
  = Some ((), world
      (b +:+ table_text ind d "number" (n_unique_values d) (values_by_number d)
       +:+ table_text ind d "name" (value_count d) (values_by_name d)
       +:+ descriptor_text ind d (n_unique_values d))
      ind (log ++ EnumDescriptor_calls d))
  ∧ length declared = distinct_numbers d
  ∧ (∀ k i i' v v',
       declared !! k = Some i → declared !! S k = Some i' →
       values d !! Z.to_nat i = Some v → values d !! Z.to_nat i' = Some v' →
       number v < number v')
  ∧ (∀ k i v j v',
       declared !! k = Some i → values d !! Z.to_nat i = Some v →
       values d !! j = Some v' → number v' = number v → i ≤ Z.of_nat j)
  ∧ (∀ j v', values d !! j = Some v' →
       ∃ i v, i ∈ declared ∧ values d !! Z.to_nat i = Some v
              ∧ number v = number v').
Proof.
  intros d declared. split; [|split; [|split; [|split]]].
  - rewrite GenerateEnumDescriptor_run. fold d.
    unfold EnumDescriptor_text. by rewrite ?string_app_assoc.
  - unfold declared. rewrite values_by_number_prefix, length_fmap.
    apply Nat2Z.inj. apply n_unique_values_distinct.
  - intros k i i' v v' Hi Hi' Hv Hv'. unfold declared in Hi, Hi'.
    rewrite values_by_number_prefix in Hi, Hi'.
    pose proof (first_of_runs_sorted_lookup d k i v Hi Hv) as Hu.
    pose proof (first_of_runs_sorted_lookup d (S k) i' v' Hi' Hv') as Hu'.
    exact (StronglySorted_lookup _ _ k (S k) _ _
             (first_of_runs_increasing _ (sorted_values_by_value d))
             (Nat.lt_succ_diag_r k) Hu Hu').
  - intros k i v j v' Hi Hv Hv' Hn. unfold declared in Hi.
    rewrite values_by_number_prefix in Hi.
    pose proof (first_of_runs_sorted_lookup d k i v Hi Hv) as Hu.
    apply list_elem_of_lookup_2 in Hu.
    assert ({| ValueIndex.value := number v'; ValueIndex.index := Z.of_nat j |}
              ∈ sorted_values d) as Hy.
    { apply elem_of_sorted_values. by exists j, v'. }
    exact (first_of_runs_least_index _ _ _ (sorted_values_Sorted d) Hu Hy Hn).
  - intros j v' Hv'. unfold declared. rewrite values_by_number_prefix.
    assert (number v' ∈ ValueIndex.value <$> first_of_runs (sorted_values d)) as Hin.
    { apply first_of_runs_values.
      rewrite sorted_values_Permutation, value_indices_values.
      apply list_elem_of_fmap_2. by eapply list_elem_of_lookup_2. }
    apply list_elem_of_fmap in Hin as (u & Hvu & Hu).
    pose proof (first_of_runs_subseteq _ _ Hu) as Hu'.
    apply elem_of_sorted_values in Hu' as (i & v & Hv & ->). simpl in Hvu.
    exists (Z.of_nat i), v. split; [|split; [by rewrite Nat2Z.id|done]].
    change (Z.of_nat i) with
      (ValueIndex.index {| ValueIndex.value := number v; ValueIndex.index := Z.of_nat i |}).
    by apply list_elem_of_fmap_2.
Qed.

Lemma sublist_same_length {A} (l1 l2 : list A) :
  l1 `sublist_of` l2 → (length l2 ≤ length l1)%nat → l1 = l2.
Proof.
  induction 1 as [|x l1 l2 Hs IH|x l1 l2 Hs IH]; simpl; intros Hlen; [done| |].
  - f_equal. apply IH. lia.
  - apply sublist_length in Hs. lia.
Qed.

Lemma value_indices_indices d :
  ValueIndex.index <$> value_indices d = seqZ 0 (value_count d).
Proof.
  apply list_eq. intros k. unfold value_indices, value_count.
  rewrite list_lookup_fmap, list_lookup_imap.
  destruct (values d !! k) as [v|] eqn:Hv; simpl.
  - apply lookup_lt_Some in Hv. rewrite lookup_seqZ_lt by lia. f_equal.
  - apply lookup_ge_None in Hv. by rewrite lookup_seqZ_ge by lia.
Qed.

(** X5. The values-by-number table has as many records as it is
    declared with exactly when every record of the sorted array from
    position [unique_value_count] on carries the greatest integer;
    otherwise the printing loop selects records again from the part of
    the array that the recording loop has left behind. *)
Theorem values_by_number_exact_iff
    (g : EnumGenerator) (b ind : string) (log : list Z) :
  let d := descriptor_ g in
  GenerateEnumDescriptor g (world b ind log)
  = Some ((), world (b +:+ EnumDescriptor_text ind d) ind
                    (log ++ EnumDescriptor_calls d))
  ∧ (length (values_by_number d) = distinct_numbers d ↔
     ∀ x m, x ∈ drop (distinct_numbers d) (sorted_values d) →
            last (sorted_values d) = Some m →
            ValueIndex.value x = ValueIndex.value m).
Proof.
  intros d. split; [apply GenerateEnumDescriptor_run|].
  pose proof (n_unique_values_distinct d) as Hn. unfold n_unique_values in Hn.
  apply Nat2Z.inj in Hn. rewrite <- Hn. unfold values_by_number.
  destruct (sorted_values d) as [|x vs] eqn:E.
  { simpl. split; [|done]. intros _ y m Hy. by apply elem_of_nil in Hy. }
  rewrite first_of_runs_recorded, fmap_app, length_app, !length_fmap.
  set (U := first_of_runs (x :: vs)).
  set (u := default x (last (unique_from x vs))).
  assert (ValueIndex.value u = ValueIndex.value (default x (last vs))) as Hu
    by apply unique_from_last_value.
  assert (last (x :: vs) = Some (default x (last vs))) as Hlast.
  { rewrite last_cons. by destruct (last vs). }
  split.
  - intros Hlen y m Hy Hm. rewrite Hlast in Hm. simplify_eq.
    assert (unique_from u (drop (length U) (x :: vs)) = []) as Hnil
      by (apply length_zero_iff_nil; lia).
    apply unique_from_nil in Hnil. rewrite Forall_forall in Hnil.
    rewrite (Hnil y Hy). done.
  - intros Hall.
    assert (unique_from u (drop (length U) (x :: vs)) = []) as ->; [|simpl; lia].
    apply unique_from_nil, Forall_forall. intros y Hy.
    rewrite Hu. by apply Hall.
Qed.

(** X4. When no two values share an integer the values-by-number
    table is right: it holds the values in the order of the sorted
    array, one record per value, in strictly ascending order of the
    integers. *)
Theorem values_by_number_without_aliases
    (g : EnumGenerator) (b ind : string) (log : list Z) :
  let d := descriptor_ g in
  NoDup (number <$> values d) →
  GenerateEnumDescriptor g (world b ind log)
  = Some ((), world (b +:+ EnumDescriptor_text ind d) ind
                    (log ++ EnumDescriptor_calls d))
  ∧ n_unique_values d = value_count d
  ∧ values_by_number d = ValueIndex.index <$> sorted_values d
  ∧ values_by_number d ≡ₚ seqZ 0 (value_count d)
  ∧ ∀ k i i' v v',
      values_by_number d !! k = Some i → values_by_number d !! S k = Some i' →
      values d !! Z.to_nat i = Some v → values d !! Z.to_nat i' = Some v' →
      number v < number v'.
Proof.
  intros d Hnd. split; [apply GenerateEnumDescriptor_run|].
  assert (distinct_numbers d = length (values d)) as Hdist.
  { unfold distinct_numbers. rewrite <- (length_fmap number (values d)).
    apply Permutation_length, NoDup_Permutation; [apply NoDup_remove_dups|done|].
    intros z. apply elem_of_remove_dups. }
  assert (n_unique_values d = value_count d) as Hn.
  { rewrite n_unique_values_distinct, Hdist. done. }
  assert (first_of_runs (sorted_values d) = sorted_values d) as Hall.
  { apply sublist_same_length; [apply first_of_runs_sublist|].
    unfold n_unique_values, value_count in Hn. rewrite sorted_values_length. lia. }
  assert (values_by_number d = ValueIndex.index <$> sorted_values d) as Hvn.
  { rewrite <- Hall. rewrite <- values_by_number_prefix.
    rewrite take_ge; [done|]. unfold values_by_number.
    rewrite length_fmap. etrans; [apply first_of_runs_length|].
    rewrite recorded_length, sorted_values_length.
    unfold value_count in Hn. lia. }
  split; [done|]. split; [done|]. split.
  { by rewrite Hvn, sorted_values_Permutation, value_indices_indices. }
  intros k i i' v v' Hi Hi' Hv Hv'. rewrite Hvn, <- Hall in Hi, Hi'.
  pose proof (first_of_runs_sorted_lookup d k i v Hi Hv) as Hu.
  pose proof (first_of_runs_sorted_lookup d (S k) i' v' Hi' Hv') as Hu'.
  exact (StronglySorted_lookup _ _ k (S k) _ _
           (first_of_runs_increasing _ (sorted_values_by_value d))
           (Nat.lt_succ_diag_r k) Hu Hu').
Qed.

(** X8. The sizes that [GenerateEnumDescriptor] prints and the tables
    it prints: [unique_value_count] lies between 0 and the number of
    values and is 0 for the empty descriptor only; the values-by-name
    table has as many records as its declared size; the
    values-by-number table has at least as many records as its declared
    size and at most one per value. *)
Theorem table_sizes (g : EnumGenerator) (b ind : string) (log : list Z) :
  let d := descriptor_ g in
  GenerateEnumDescriptor g (world b ind log)
  = Some ((), world
      (b +:+ table_text ind d "number" (n_unique_values d) (values_by_number d)
       +:+ table_text ind d "name" (value_count d) (values_by_name d)
       +:+ descriptor_text ind d (n_unique_values d))
      ind (log ++ EnumDescriptor_calls d))
  ∧ 0 ≤ n_unique_values d ≤ value_count d
  ∧ (n_unique_values d = 0 ↔ values d = [])
  ∧ Z.of_nat (length (values_by_name d)) = value_count d
  ∧ n_unique_values d ≤ Z.of_nat (length (values_by_number d)) ≤ value_count d.
Proof.
  intros d. split; [|split; [|split; [|split]]].
  - rewrite GenerateEnumDescriptor_run. fold d.
    unfold EnumDescriptor_text. by rewrite ?string_app_assoc.
  - unfold n_unique_values, value_count. rewrite <- sorted_values_length.
    pose proof (first_of_runs_length (sorted_values d)). lia.
  - unfold n_unique_values. pose proof (sorted_values_length d) as Hlen.
    destruct (sorted_values d) as [|x vs]; simpl in *.
    + split; [|done]. intros _. by apply length_zero_iff_nil.
    + split; [lia|]. intros Hnil. rewrite Hnil in Hlen. simpl in Hlen. lia.
  - unfold values_by_name, value_count. by rewrite length_fmap, sorted_names_length.
  - split.
    + destruct (values_by_number_app d) as (extra & ->).
      unfold n_unique_values. rewrite length_app, length_fmap. lia.
    + unfold values_by_number, value_count. rewrite length_fmap.
      pose proof (first_of_runs_length (recorded (sorted_values d))) as Hle.
      rewrite recorded_length, sorted_values_length in Hle. lia.
Qed.

(** X1. [GenerateEnumDescriptor] runs to its end on every descriptor,
    and every index it passes to [EnumDescriptor::value], while it
    fills the arrays and for every record it prints, is an index of a
    value of the descriptor. *)
Theorem GenerateEnumDescriptor_calls_in_range
    (g : EnumGenerator) (b ind : string) (log : list Z) :
  let d := descriptor_ g in
  GenerateEnumDescriptor g (world b ind log)
  = Some ((), world (b +:+ EnumDescriptor_text ind d) ind
                    (log ++ seqZ 0 (value_count d)
                         ++ values_by_number d ++ values_by_name d))
  ∧ Forall (valid_index d) (seqZ 0 (value_count d))
  ∧ Forall (valid_index d) (values_by_number d)
  ∧ Forall (valid_index d) (values_by_name d).
Proof.
  intros d. split; [apply GenerateEnumDescriptor_run|]. split; [|split].
  - apply Forall_seqZ. unfold valid_index. lia.
  - unfold values_by_number. apply Forall_fmap, Forall_forall.
    intros x Hx%first_of_runs_subseteq.
    exact (proj1 (Forall_forall _ _) (recorded_valid d) x Hx).
  - unfold values_by_name. apply Forall_fmap. apply sorted_names_valid.
Qed.

(** X9. [GenerateValueInitializer] prints the record of a value when
    its index is one of the descriptor, and reads through a pointer
    outside of the value array, a fault, exactly when it is not. *)
Theorem GenerateValueInitializer_fault_iff
    (g : EnumGenerator) (index : Z) (b ind : string) (log : list Z) :
  (GenerateValueInitializer g index (world b ind log) = None
   ↔ ¬ valid_index (descriptor_ g) index)
  ∧ (valid_index (descriptor_ g) index →
     GenerateValueInitializer g index (world b ind log)
     = Some ((), world (b +:+ value_initializer ind (descriptor_ g) index) ind
                       (log ++ [index]))).
Proof.
  assert (valid_index (descriptor_ g) index →
     GenerateValueInitializer g index (world b ind log)
     = Some ((), world (b +:+ value_initializer ind (descriptor_ g) index) ind
                       (log ++ [index]))) as Hok
    by apply GenerateValueInitializer_run.
  split; [|done]. split.
  - intros Hnone Hvalid. rewrite Hok in Hnone by done. done.
  - intros Hinv. unfold GenerateValueInitializer.
    erewrite bind_run by apply value_run. cbv zeta.
    unfold mbind, M_bind, deref. unfold valid_index, value_count in Hinv.
    case_decide; [|done]. by rewrite lookup_ge_None_2 by lia.
Qed.

(** ** The loop of GenerateDefinition *)

(** One iteration, in full: the member it prints, the calls it makes
    and the two pointers it leaves. *)
Lemma define_value_step d b ind j v vmin vmax (vars : gmap string string)
    minv maxv log :
  0 ≤ j → values d !! Z.to_nat j = Some v →
  0 ≤ minv → values d !! Z.to_nat minv = Some vmin →
  0 ≤ maxv → values d !! Z.to_nat maxv = Some vmax →
  ∃ vars' calls,
    define_value d j (vars, minv, maxv) (world b ind log)
    = Some ((vars',
             if decide (number v < number vmin) then j else minv,
             if decide (number v > number vmax) then j else maxv),
            world (b +:+ enum_member ind d v) ind (log ++ calls))
    ∧ vars' !! "classname" = vars !! "classname"
    ∧ Forall (λ i, i = j) calls.
Proof.
  intros Hj Hv Hmin Hvmin Hmax Hvmax. unfold define_value.
  erewrite bind_run by (by apply value_deref_run).
  erewrite bind_run by (by apply value_deref_run). cbv zeta.
  erewrite bind_run; cycle 1.
  { apply Print_run. run_print. lookup_vars. run_writes. reflexivity. }
  erewrite bind_run by (by apply value_deref_run).
  erewrite bind_run by (by apply deref_run).
  match goal with
  | |- context [world ?t ind (((log ++ [j]) ++ [j]) ++ [j])] =>
    replace t with (b +:+ enum_member ind d v)
      by (unfold enum_member, NL; by str_norm)
  end.
  destruct (decide (number v < number vmin)), (decide (number v > number vmax)).
  all: erewrite bind_run by first [apply value_run | reflexivity].
  all: erewrite bind_run by (by apply value_deref_run).
  all: erewrite bind_run by (by apply deref_run).
  all: rewrite ?decide_True, ?decide_False by done.
  all: erewrite bind_run by first [apply value_run | reflexivity].
  all: eexists _, _; split;
    [unfold mret, M_ret; rewrite <- !(assoc_L (++)); reflexivity|].
  all: split; [by lookup_vars | repeat constructor].
Qed.

(** The loop over the values: the members it prints, the range of its
    calls to [value] and the values that [min_value] and [max_value]
    point to at its end. *)
Lemma define_loop_run d b ind (vars : gmap string string) log :
  values d ≠ [] →
  ∃ vars' minv maxv vmin vmax calls,
    for_ 0 (value_count d) (define_value d) (vars, 0, 0) (world b ind log)
    = Some ((vars', minv, maxv),
            world (b +:+ cat (enum_member ind d <$> values d)) ind (log ++ calls))
    ∧ vars' !! "classname" = vars !! "classname"
    ∧ Forall (valid_index d) calls
    ∧ 0 ≤ minv ∧ values d !! Z.to_nat minv = Some vmin
    ∧ 0 ≤ maxv ∧ values d !! Z.to_nat maxv = Some vmax
    ∧ ∀ k v, values d !! k = Some v →
        (number vmin ≤ number v ∧ (number v = number vmin → minv ≤ Z.of_nat k))
        ∧ (number v ≤ number vmax ∧ (number v = number vmax → maxv ≤ Z.of_nat k)).
Proof.
  intros Hne.
  assert (0 < value_count d) as Hpos.
  { unfold value_count. destruct (values d); [done|simpl; lia]. }
  destruct (for_inv
    (λ j '(vars', minv, maxv) w,
       vars' !! "classname" = vars !! "classname" ∧
       (0 ≤ minv ∧ (minv < j ∨ minv = 0)) ∧ (0 ≤ maxv ∧ (maxv < j ∨ maxv = 0)) ∧
       (∀ k vk vm, (Z.of_nat k < j) → values d !! k = Some vk →
          values d !! Z.to_nat minv = Some vm →
          number vm ≤ number vk ∧ (number vk = number vm → minv ≤ Z.of_nat k)) ∧
       (∀ k vk vm, (Z.of_nat k < j) → values d !! k = Some vk →
          values d !! Z.to_nat maxv = Some vm →
          number vk ≤ number vm ∧ (number vk = number vm → maxv ≤ Z.of_nat k)) ∧
       ∃ calls, w = world
         (b +:+ cat (enum_member ind d <$> take (Z.to_nat j) (values d)))
         ind (log ++ calls) ∧ Forall (valid_index d) calls)
    (define_value d) 0 (value_count d) (vars, 0, 0) (world b ind log))
    as ([[vars' minv] maxv] & w' & Hrun & Hvars & Hmin & Hmax & Hleast & Hgreatest
        & calls & -> & Hcalls).
  { lia. }
  { split; [done|]. split; [lia|]. split; [lia|]. split; [intros; lia|].
    split; [intros; lia|]. exists []. split; [|constructor].
    simpl. unfold cat; simpl. by rewrite string_app_nil_r, app_nil_r. }
  { intros j [[vars1 minv] maxv] w Hj
      (Hvars & Hmin & Hmax & Hleast & Hgreatest & calls & -> & Hcalls).
    unfold value_count in Hj, Hpos.
    destruct (lookup_lt_is_Some_2 (values d) (Z.to_nat j)) as [v Hv]; [lia|].
    destruct (lookup_lt_is_Some_2 (values d) (Z.to_nat minv)) as [vmin Hvmin]; [lia|].
    destruct (lookup_lt_is_Some_2 (values d) (Z.to_nat maxv)) as [vmax Hvmax]; [lia|].
    destruct (define_value_step d
      (b +:+ cat (enum_member ind d <$> take (Z.to_nat j) (values d))) ind j v
      vmin vmax vars1 minv maxv (log ++ calls))
      as (vars2 & calls2 & Hrun & Hvars2 & Hcalls2); [lia|done|lia|done|lia|done|].
    eexists (_, _, _), _. split; [exact Hrun|].
    split; [congruence|].
    split; [clear Hrun; destruct (decide (number v < number vmin)); lia|].
    split; [clear Hrun; destruct (decide (number v > number vmax)); lia|].
    assert (∀ k, Z.of_nat k < j + 1 → Z.of_nat k < j ∨ k = Z.to_nat j) as Hcase
      by (intros; lia).
    split; [|split].
    - intros k vk vm Hk Hvk Hvm. destruct (Hcase k Hk) as [Hlt| ->].
      + destruct (Hleast k vk vmin Hlt Hvk Hvmin) as [Hle Heq].
        destruct (decide (number v < number vmin)); simplify_eq; lia.
      + destruct (decide (number v < number vmin)); simplify_eq; lia.
    - intros k vk vm Hk Hvk Hvm. destruct (Hcase k Hk) as [Hlt| ->].
      + destruct (Hgreatest k vk vmax Hlt Hvk Hvmax) as [Hle Heq].
        destruct (decide (number v > number vmax)); simplify_eq; lia.
      + destruct (decide (number v > number vmax)); simplify_eq; lia.
    - exists (calls ++ calls2). split.
      + rewrite (assoc_L (++)). f_equal.
        replace (Z.to_nat (j + 1)) with (Datatypes.S (Z.to_nat j)) by lia.
        erewrite take_S_r by done. rewrite fmap_app.
        change (enum_member ind d <$> [v]) with [enum_member ind d v].
        by rewrite cat_snoc, string_app_assoc.
      + apply Forall_app. split; [done|].
        eapply Forall_impl; [exact Hcalls2|]. intros i ->.
        unfold valid_index, value_count. lia. }
  unfold value_count in Hpos.
  destruct (lookup_lt_is_Some_2 (values d) (Z.to_nat minv)) as [vmin Hvmin].
  { unfold value_count in Hmin. lia. }
  destruct (lookup_lt_is_Some_2 (values d) (Z.to_nat maxv)) as [vmax Hvmax].
  { unfold value_count in Hmax. lia. }
  exists vars', minv, maxv, vmin, vmax, calls.
  rewrite take_ge in Hrun by (unfold value_count; lia).
  split; [done|]. split; [done|]. split; [done|].
  split; [lia|]. split; [done|]. split; [lia|]. split; [done|].
  intros k v Hv. pose proof (lookup_lt_Some _ _ _ Hv) as Hk.
  split; [eapply Hleast|eapply Hgreatest]; (done || unfold value_count; lia).
Qed.

(** X2. On a descriptor with a value, [GenerateDefinition] passes to
    [EnumDescriptor::value] indices of values of the descriptor only. *)
Theorem GenerateDefinition_calls_in_range
    (g : EnumGenerator) (b ind : string) (log : list Z) :
  let d := descriptor_ g in
  values d ≠ [] →
  ∃ calls,
    GenerateDefinition g (world b ind log)
    = Some ((), world (b +:+ Definition_text ind d) ind (log ++ calls))
    ∧ Forall (valid_index d) calls.
Proof.
  intros d Hne. unfold GenerateDefinition. fold d. cbv zeta.
  set (vars0 := <["shortname" := enum_name d]>
                  (<["classname" := FullNameToC (full_name d)]> ∅)
                : gmap string string).
  erewrite bind_run; cycle 1.
  { apply Print_run. run_print. subst vars0. lookup_vars. run_writes. reflexivity. }
  erewrite bind_run by apply Indent_run.
  erewrite bind_run by apply value_run.
  erewrite bind_run by apply value_run.
  match goal with |- context [world ?t (ind +:+ "  ") _] => set (b1 := t) end.
  destruct (define_loop_run d b1 (ind +:+ "  ") vars0 ((log ++ [0]) ++ [0]) Hne)
    as (vars' & minv & maxv & vmin & vmax & calls & Hrun & Hvars & Hcalls & _).
  erewrite bind_run by exact Hrun. cbv beta iota.
  erewrite bind_run by apply Outdent_run.
  exists ([0; 0] ++ calls). split.
  - replace (log ++ [0; 0] ++ calls) with (((log ++ [0]) ++ [0]) ++ calls)
      by (by rewrite <- !(assoc_L (++))).
    apply Print_run. run_print. rewrite Hvars. subst vars0. lookup_vars.
    run_writes. do 2 f_equal. unfold Definition_text, b1, NL. by str_norm.
  - assert (valid_index d 0) as Hzero.
    { unfold valid_index, value_count. destruct (values d); [done|simpl; lia]. }
    simpl. by repeat (apply Forall_cons; split; [done|]).
Qed.

(** X10. The loop of [GenerateDefinition] leaves [min_value] on the
    first declared value of the least integer and [max_value] on the
    first declared value of the greatest integer of a descriptor with
    a value. *)
Theorem define_value_loop_min_max
    (d : EnumDescriptor) (vars : gmap string string) (b ind : string)
    (log : list Z) :
  values d ≠ [] →
  ∃ vars' minv maxv vmin vmax w',
    for_ 0 (value_count d) (define_value d) (vars, 0, 0) (world b ind log)
    = Some ((vars', minv, maxv), w')
    ∧ 0 ≤ minv ∧ values d !! Z.to_nat minv = Some vmin
    ∧ 0 ≤ maxv ∧ values d !! Z.to_nat maxv = Some vmax
    ∧ ∀ k v, values d !! k = Some v →
        (number vmin ≤ number v ∧ (number v = number vmin → minv ≤ Z.of_nat k))
        ∧ (number v ≤ number vmax ∧ (number v = number vmax → maxv ≤ Z.of_nat k)).
Proof.
  intros Hne.
  destruct (define_loop_run d b ind vars log Hne)
    as (vars' & minv & maxv & vmin & vmax & calls & Hrun & _ & _ & Hrest).
  by eexists vars', minv, maxv, vmin, vmax, _.
Qed.

End Further.

(** ** The part of qsort *)

(** The comparison by value and index leaves no tie: the sorted array
    and what is read off it do not depend on the sorting function. *)
Lemma values_by_number_any_qsort_aux (q1 q2 : Qsort) (d : EnumDescriptor) :
  @sorted_values q1 d = @sorted_values q2 d
  ∧ @n_unique_values q1 d = @n_unique_values q2 d
  ∧ @values_by_number q1 d = @values_by_number q2 d.
Proof.
  assert (@sorted_values q1 d = @sorted_values q2 d) as Hs.
  { apply (@sorted_values_unique q1).
    - apply (@sorted_values_Sorted q2).
    - apply (@sorted_values_Permutation q2). }
  split; [done|]. unfold n_unique_values, values_by_number. by rewrite Hs.
Qed.

(** X6. The comparison of lines 115-124 returns 0 for two equal
    records only, so the order of the values-by-number array, the
    number of unique values and the records of the values-by-number
    table are the same for every sorting function that meets the
    contract of [qsort]. *)
Theorem values_by_number_any_qsort (q1 q2 : Qsort) (d : EnumDescriptor) :
  (∀ a b, compare_value_indices_by_value_then_index a b = 0 → a = b)
  ∧ @sorted_values q1 d = @sorted_values q2 d
  ∧ @n_unique_values q1 d = @n_unique_values q2 d
  ∧ @values_by_number q1 d = @values_by_number q2 d.
Proof.
  split; [|apply values_by_number_any_qsort_aux].
  intros a b Hab.
  apply (anti_symm (cmp_le compare_value_indices_by_value_then_index)).
  - unfold cmp_le. lia.
  - pose proof (cmp_antisym _ compare_value_Consistent a b) as Hba.
    rewrite Hab in Hba. simpl in Hba. apply Z.sgn_null_iff in Hba.
    unfold cmp_le. lia.
Qed.

(** X7. When the names of the values are distinct and hold no NUL
    byte, [strcmp] leaves no tie either: [GenerateEnumDescriptor] prints
    the same text whatever sorting function stands for [qsort]. *)
Theorem GenerateEnumDescriptor_any_qsort
    (H : CHelpers) (q1 q2 : Qsort) (g : EnumGenerator) (b ind : string)
    (log : list Z) :
  NoDup (name <$> values (descriptor_ g)) →
  Forall (λ v, NUL_free (name v)) (values (descriptor_ g)) →
  @GenerateEnumDescriptor H q1 g (world b ind log)
  = @GenerateEnumDescriptor H q2 g (world b ind log).
Proof.
  intros Hnd Hnul. set (d := descriptor_ g) in *.
  assert (@sorted_names q1 d = @sorted_names q2 d) as Hn.
  { apply (StronglySorted_unique_strong (cmp_le compare_name_indices_by_name)).
    - intros x1 x2 Hx1 Hx2 H12 H21.
      rewrite (@sorted_names_Permutation q1) in Hx1.
      rewrite (@sorted_names_Permutation q2) in Hx2.
      apply elem_of_name_indices in Hx1 as (j1 & v1 & Hv1 & ->).
      apply elem_of_name_indices in Hx2 as (j2 & v2 & Hv2 & ->).
      unfold cmp_le, compare_name_indices_by_name in H12, H21. simpl in *.
      apply strcmp_le in H12, H21.
      pose proof (Forall_lookup_1 _ _ _ _ Hnul Hv1) as Hf1.
      pose proof (Forall_lookup_1 _ _ _ _ Hnul Hv2) as Hf2.
      unfold NUL_free in Hf1, Hf2. simpl in *. rewrite Hf1, Hf2 in H12, H21.
      assert (name v1 = name v2) as Hname by (by apply (anti_symm String.le)).
      assert (j1 = j2) as ->.
      { eapply (NoDup_lookup _ j1 j2 (name v1) Hnd);
          rewrite list_lookup_fmap; [by rewrite Hv1|by rewrite Hv2, Hname]. }
      by simplify_eq.
    - apply (@sorted_names_Sorted q1).
    - apply (@sorted_names_Sorted q2).
    - by rewrite (@sorted_names_Permutation q1), (@sorted_names_Permutation q2). }
  destruct (values_by_number_any_qsort_aux q1 q2 d) as (Hs & Hu & Hv).
  rewrite !GenerateEnumDescriptor_run. fold d.
  unfold EnumDescriptor_text, EnumDescriptor_calls, values_by_name.
  by rewrite Hn, Hu, Hv.
Qed.

(** ** The recording loop on its own *)

Lemma unique_from_neighbours p l :
  (∀ c, unique_from p l !! 0%nat = Some c → ValueIndex.value p ≠ ValueIndex.value c)
  ∧ ∀ k a c, unique_from p l !! k = Some a → unique_from p l !! S k = Some c →
             ValueIndex.value a ≠ ValueIndex.value c.
Proof.
  revert p. induction l as [|y l IH]; intros p; simpl; [done|].
  destruct (IH y) as [IH0 IHS].
  destruct (decide (ValueIndex.value p ≠ ValueIndex.value y)) as [Hne|Heq].
  - split.
    + intros c Hc. by simplify_eq/=.
    + intros [|k] a c Ha Hc; simplify_eq/=; [by apply IH0|by eapply IHS].
  - split; [|done]. intros c Hc.
    assert (ValueIndex.value p = ValueIndex.value y) as ->
      by (by destruct (decide (ValueIndex.value p = ValueIndex.value y))).
    by apply IH0.
Qed.

Lemma first_of_runs_neighbours l k a c :
  first_of_runs l !! k = Some a → first_of_runs l !! S k = Some c →
  ValueIndex.value a ≠ ValueIndex.value c.
Proof.
  destruct l as [|x l]; simpl; [done|].
  destruct (unique_from_neighbours x l) as [H0 HS].
  destruct k as [|k]; intros Ha Hc; simplify_eq/=; [by apply H0|by eapply HS].
Qed.

(** X11. The loop of lines 156-160, run on any array that is not
    empty, sorted or not, ends without reading or writing outside of
    the array; it keeps the length of the array, leaves in its first
    [n_unique_values] slots the first record of every run of equal
    values, in the order of the array, and leaves the slots behind them
    as they were. *)
Theorem record_unique_in_place (vs : list ValueIndex.t) (w : World) :
  vs ≠ [] →
  ∃ value_index n_unique_values,
    for_ 1 (Z.of_nat (length vs)) record_unique (vs, 1) w
    = Some ((value_index, Z.of_nat n_unique_values), w)
    ∧ length value_index = length vs
    ∧ (1 ≤ n_unique_values ≤ length vs)%nat
    ∧ take n_unique_values value_index = first_of_runs vs
    ∧ drop n_unique_values value_index = drop n_unique_values vs
    ∧ ∀ k a c, take n_unique_values value_index !! k = Some a →
               take n_unique_values value_index !! S k = Some c →
               ValueIndex.value a ≠ ValueIndex.value c.
Proof.
  intros Hne. exists (recorded vs), (length (first_of_runs vs)).
  split; [by apply record_loop_run|]. split; [apply recorded_length|].
  assert (take (length (first_of_runs vs)) (recorded vs) = first_of_runs vs) as Htake
    by (unfold recorded; by rewrite take_app_length).
  split; [|split; [done|split]].
  - pose proof (first_of_runs_length vs). destruct vs; [done|simpl in *; lia].
  - unfold recorded. by rewrite drop_app_length.
  - rewrite Htake. apply first_of_runs_neighbours.
Qed.

(** ** Examples for the further properties *)

(** Another sorting function that meets the contract of qsort: it
    orders what compares equal the other way round. *)
Definition reverse_merge_qsort : Qsort := {|
  qsort := λ A cmp l, merge_sort (cmp_le cmp) (reverse l);
  qsort_Permutation := λ A cmp l,
    transitivity (merge_sort_Permutation (cmp_le cmp) (reverse l))
                 (reverse_Permutation l);
  qsort_Sorted := λ A cmp l, merge_sort_Sorted cmp (reverse l);
|}.

(** An enum without two values of one integer. *)
Definition plain : EnumDescriptor := {|
  full_name := "pkg.Digit"; enum_name := "Digit"; package := "pkg";
  values := [ {| name := "ONE"; number := 1 |}; {| name := "ZERO"; number := 0 |};
              {| name := "TWO"; number := 2 |} ];
|}.

Definition plain_generator : EnumGenerator :=
  {| descriptor_ := plain; dllexport_decl_ := "" |}.

(** X2 at [colors]. *)
Lemma GenerateDefinition_calls_in_range_witness :
  values colors ≠ []
  ∧ ∃ calls,
      GenerateDefinition colors_generator (world "" "" [])
      = Some ((), world ("" +:+ Definition_text "" colors) "" ([] ++ calls))
      ∧ Forall (valid_index colors) calls.
Proof.
  assert (values colors ≠ []) as Hne by done.
  split; [exact Hne|].
  exact (GenerateDefinition_calls_in_range colors_generator "" "" [] Hne).
Defined.

(** X4 at [plain]. *)
Lemma values_by_number_without_aliases_witness :
  NoDup (number <$> values plain)
  ∧ (GenerateEnumDescriptor plain_generator (world "" "" [])
     = Some ((), world ("" +:+ EnumDescriptor_text "" plain) ""
                       ([] ++ EnumDescriptor_calls plain))
     ∧ n_unique_values plain = value_count plain
     ∧ values_by_number plain = ValueIndex.index <$> sorted_values plain
     ∧ values_by_number plain ≡ₚ seqZ 0 (value_count plain)
     ∧ ∀ k i i' v v',
         values_by_number plain !! k = Some i →
         values_by_number plain !! S k = Some i' →
         values plain !! Z.to_nat i = Some v →
         values plain !! Z.to_nat i' = Some v' →
         number v < number v').
Proof.
  assert (NoDup (number <$> values plain)) as Hnd
    by (apply (bool_decide_unpack _); vm_compute; exact I).
  split; [exact Hnd|].
  exact (values_by_number_without_aliases plain_generator "" "" [] Hnd).
Defined.

(** X7 at [colors], for the two sorting functions of this file. *)
Lemma GenerateEnumDescriptor_any_qsort_witness :
  NoDup (name <$> values colors)
  ∧ Forall (λ v, NUL_free (name v)) (values colors)
  ∧ @GenerateEnumDescriptor SpecHelpers.spec_helpers merge_qsort
      colors_generator (world "" "" [])
    = @GenerateEnumDescriptor SpecHelpers.spec_helpers reverse_merge_qsort
        colors_generator (world "" "" []).
Proof.
  assert (NoDup (name <$> values colors)) as Hnd
    by (apply (bool_decide_unpack _); vm_compute; exact I).
  assert (Forall (λ v, NUL_free (name v)) (values colors)) as Hnul
    by (repeat constructor).
  split; [exact Hnd|]. split; [exact Hnul|].
  exact (GenerateEnumDescriptor_any_qsort SpecHelpers.spec_helpers
           merge_qsort reverse_merge_qsort colors_generator "" "" [] Hnd Hnul).
Defined.

(** X10 at [colors]: the least integer is that of ALPHA, the greatest
    that of GREEN, declared before BLUE. *)
Lemma define_value_loop_min_max_witness :
  values colors ≠ []
  ∧ ∃ vars' minv maxv vmin vmax w',
      for_ 0 (value_count colors) (define_value colors) (∅, 0, 0) (world "" "" [])
      = Some ((vars', minv, maxv), w')
      ∧ 0 ≤ minv ∧ values colors !! Z.to_nat minv = Some vmin
      ∧ 0 ≤ maxv ∧ values colors !! Z.to_nat maxv = Some vmax
      ∧ ∀ k v, values colors !! k = Some v →
          (number vmin ≤ number v ∧ (number v = number vmin → minv ≤ Z.of_nat k))
          ∧ (number v ≤ number vmax ∧ (number v = number vmax → maxv ≤ Z.of_nat k)).
Proof.
  assert (values colors ≠ []) as Hne by done.
  split; [exact Hne|].
  exact (define_value_loop_min_max colors ∅ "" "" [] Hne).
Defined.

(** An array with a run of two records. *)
Definition small_array : list ValueIndex.t :=
  [ {| ValueIndex.value := 1; ValueIndex.index := 0 |};
    {| ValueIndex.value := 1; ValueIndex.index := 1 |};
    {| ValueIndex.value := 2; ValueIndex.index := 2 |} ].

(** X11 at [small_array]. *)
Lemma record_unique_in_place_witness :
  small_array ≠ []
  ∧ ∃ value_index n_unique_values,
      for_ 1 (Z.of_nat (length small_array)) record_unique
        (small_array, 1) (world "" "" [])
      = Some ((value_index, Z.of_nat n_unique_values), world "" "" [])
      ∧ length value_index = length small_array
      ∧ (1 ≤ n_unique_values ≤ length small_array)%nat
      ∧ take n_unique_values value_index = first_of_runs small_array
      ∧ drop n_unique_values value_index = drop n_unique_values small_array
      ∧ ∀ k a c, take n_unique_values value_index !! k = Some a →
                 take n_unique_values value_index !! S k = Some c →
                 ValueIndex.value a ≠ ValueIndex.value c.
Proof.
  assert (small_array ≠ []) as Hne by done.
  split; [exact Hne|].
  exact (record_unique_in_place small_array (world "" "" []) Hne).
Defined.
